(** * SocketTransport: a reconnecting wrapper around one WebSocket

    A shallow embedding of [lib/SocketTransport.js].  The transport object
    ([this]) is a record of its four mutable fields; everything it
    touches outside itself is kept in a [World]: the socket objects it has
    constructed (a heap indexed by creation order, because a socket that
    the transport no longer references can still deliver events to
    listeners left on it), the timers set with [setTimeout], the
    notifications handed to [emit], and the log of calls made on sockets.

    Conventions.
    - The socket implementation is the module parameter
      [SocketConstructor].  What a socket object answers ([readyState],
      which removal methods it has, whether [send] or [close] throws) is
      opaque; the environment may change it at any time ([Env_socket]).
    - Listener registration follows the DOM [EventTarget] contract: adding
      a callback already registered for a type is a no-op, removing it
      unregisters it.
    - [emit] appends to the trace of notifications; subscribers neither
      throw nor call back into the transport.  As in EventEmitter2, emitting
      ['error'] while nobody subscribes to it throws instead ([on_error]
      says whether somebody does).
    - An exception that escapes a method, a listener or the timer callback
      is recorded in [escaped] and the program goes on.
    - [setTimeout] returns a positive integer handle, hence a truthy one.
    - [new SocketConstructor(url)] returns a socket object or throws.
    - What [removeListener] does with the reference it is given is the
      socket's: a socket that registered a wrapper keeps its listener. *)

From stdpp Require Import base list strings.
From Stdlib Require Import ZArith Lia.

Open Scope Z_scope.
Open Scope nat_scope.

(** ** Data *)

(** The [states] array. *)
Inductive State := unconnected | connecting | connected | retrying.

#[global] Instance State_eq_dec : EqDecision State.
Proof. solve_decision. Defined.

(** The four event types the transport listens to on a socket. *)
Inductive EventName := ev_open | ev_error | ev_close | ev_message.

#[global] Instance EventName_eq_dec : EqDecision EventName.
Proof. solve_decision. Defined.

(** What a socket object answers when inspected or called. *)
Record SocketObject := mkSocketObject {
  readyState : Z;
  has_removeEventListener : bool;
  has_removeListener : bool;
  send_throws : bool;
  close_throws : bool;
  removeListener_detaches : bool
}.

(** A heap cell: the object and the transport's listeners registered on it. *)
Record Socket := mkSocket {
  object : SocketObject;
  attached : list EventName
}.

(** The fields assigned in the constructor ([_options] is stored and never
    read; [_standardListeners] is the constant map [listener] below). *)
Record SocketTransport := mkSocketTransport {
  _URL : string;
  _socket : option nat;
  _state : State;
  _active : bool;
  _reconnectTimeout : option positive
}.

Record Timer := mkTimer { handle : positive; delay : Z }.

Inductive Notification :=
| Connect
| Disconnect
| Message (data : string)
| Error (err : string)
| SendNote (message : string).

#[global] Instance Notification_eq_dec : EqDecision Notification.
Proof. solve_decision. Defined.

Inductive SocketCall :=
| New (sid : nat) (url : string)
| AddEventListener (sid : nat) (ev : EventName)
| RemoveEventListener (sid : nat) (ev : EventName)
| RemoveListener (sid : nat) (ev : EventName)
| Close (sid : nat)
| Send (sid : nat) (message : string).

#[global] Instance SocketCall_eq_dec : EqDecision SocketCall.
Proof. solve_decision. Defined.

(** What a call can raise. *)
Inductive Exception :=
| SocketTransportStateError (state : State) (readyState : option Z)
| TypeError
| SocketError
| ConstructorError
| UnhandledError (error : string).

Record World := mkWorld {
  this : SocketTransport;
  heap : list Socket;
  pending : list Timer;
  next_handle : positive;
  emitted : list Notification;
  calls : list SocketCall;
  on_error : bool;
  escaped : list Exception
}.

Inductive Completion := Returned | Threw (e : Exception).

(** ** Field updates *)

Definition set_socket (s : option nat) (w : World) : World :=
  let t := this w in
  mkWorld (mkSocketTransport (_URL t) s (_state t) (_active t) (_reconnectTimeout t))
          (heap w) (pending w) (next_handle w) (emitted w) (calls w)
          (on_error w) (escaped w).

Definition set_state (s : State) (w : World) : World :=
  let t := this w in
  mkWorld (mkSocketTransport (_URL t) (_socket t) s (_active t) (_reconnectTimeout t))
          (heap w) (pending w) (next_handle w) (emitted w) (calls w)
          (on_error w) (escaped w).

Definition set_active (b : bool) (w : World) : World :=
  let t := this w in
  mkWorld (mkSocketTransport (_URL t) (_socket t) (_state t) b (_reconnectTimeout t))
          (heap w) (pending w) (next_handle w) (emitted w) (calls w)
          (on_error w) (escaped w).

Definition set_reconnectTimeout (h : option positive) (w : World) : World :=
  let t := this w in
  mkWorld (mkSocketTransport (_URL t) (_socket t) (_state t) (_active t) h)
          (heap w) (pending w) (next_handle w) (emitted w) (calls w)
          (on_error w) (escaped w).

Definition set_heap (h : list Socket) (w : World) : World :=
  mkWorld (this w) h (pending w) (next_handle w) (emitted w) (calls w)
          (on_error w) (escaped w).

(** ** The collaborators *)

(** [EventEmitter2.prototype.emit]. *)
Definition emit (n : Notification) (w : World) : World :=
  mkWorld (this w) (heap w) (pending w) (next_handle w) (emitted w ++ [n]) (calls w)
          (on_error w) (escaped w).

(** An exception leaves the running method; nothing after it is executed. *)
Definition throw (e : Exception) (w : World) : World :=
  mkWorld (this w) (heap w) (pending w) (next_handle w) (emitted w) (calls w)
          (on_error w) (e :: escaped w).

(** [EventEmitter2.prototype.on('error', f)] and [off('error', f)]. *)
Definition set_on_error (b : bool) (w : World) : World :=
  mkWorld (this w) (heap w) (pending w) (next_handle w) (emitted w) (calls w)
          b (escaped w).

Definition call (c : SocketCall) (w : World) : World :=
  mkWorld (this w) (heap w) (pending w) (next_handle w) (emitted w) (calls w ++ [c])
          (on_error w) (escaped w).

Definition attach (ev : EventName) (s : Socket) : Socket :=
  mkSocket (object s)
           (if bool_decide (ev ∈ attached s) then attached s else attached s ++ [ev]).

Definition detach (ev : EventName) (s : Socket) : Socket :=
  mkSocket (object s) (filter (λ e, e ≠ ev) (attached s)).

Definition addEventListener (sid : nat) (ev : EventName) (w : World) : World :=
  call (AddEventListener sid ev) (set_heap (alter (attach ev) sid (heap w)) w).

Definition removeEventListener (sid : nat) (ev : EventName) (w : World) : World :=
  call (RemoveEventListener sid ev) (set_heap (alter (detach ev) sid (heap w)) w).

Definition removeListener (sid : nat) (ev : EventName) (w : World) : World :=
  call (RemoveListener sid ev)
       (set_heap (alter (λ s, if removeListener_detaches (object s)
                              then detach ev s else s) sid (heap w)) w).

(** [socket.close()]: the call is made; whether it throws is the socket's. *)
Definition socket_close (sid : nat) (w : World) : Completion * World :=
  match heap w !! sid with
  | Some s => (if close_throws (object s) then Threw SocketError else Returned,
               call (Close sid) w)
  | None => (Threw TypeError, w)
  end.

(** [socket.send(message)]. *)
Definition socket_send (sid : nat) (message : string) (w : World) : Completion * World :=
  match heap w !! sid with
  | Some s => (if send_throws (object s) then Threw SocketError else Returned,
               call (Send sid message) w)
  | None => (Threw TypeError, w)
  end.

(** [setTimeout(callback, ms)]: the callback is always the retry callback. *)
Definition setTimeout (ms : Z) (w : World) : positive * World :=
  let h := next_handle w in
  (h, mkWorld (this w) (heap w) (pending w ++ [mkTimer h ms]) (Pos.succ h)
              (emitted w) (calls w) (on_error w) (escaped w)).

Definition clearTimeout (h : positive) (w : World) : World :=
  mkWorld (this w) (heap w) (filter (λ t, handle t ≠ h) (pending w)) (next_handle w)
          (emitted w) (calls w)
          (on_error w) (escaped w).

(** ** The transport *)

Section Transport.

(** The argument of [module.exports]. *)
Variable SocketConstructor : string → option SocketObject.

(** The constructor: throws on a falsy URL, otherwise the inert object. *)
Definition new_SocketTransport (URL : string) : option SocketTransport :=
  match URL with
  | EmptyString => None
  | _ => Some (mkSocketTransport URL None unconnected false None)
  end.

Definition initial (t : SocketTransport) : World :=
  mkWorld t [] [] 1%positive [] [] false [].

(** *** State transition methods *)

Definition _setup (w : World) : World :=
  match _socket (this w) with
  | Some sid =>
      let w := addEventListener sid ev_open w in
      let w := addEventListener sid ev_error w in
      let w := addEventListener sid ev_close w in
      addEventListener sid ev_message w
  | None => w
  end.

Definition _connect (w : World) : World :=
  match SocketConstructor (_URL (this w)) with
  | None =>
      (* [new SocketConstructor] throws: nothing is assigned *)
      throw ConstructorError w
  | Some o =>
      let sid := length (heap w) in
      let w := call (New sid (_URL (this w)))
                    (set_heap (heap w ++ [mkSocket o []]) w) in
      let w := set_socket (Some sid) w in
      _setup w
  end.

Definition _teardown (w : World) : World :=
  match _socket (this w) with
  | None => w
  | Some sid =>
      match heap w !! sid with
      | None => w
      | Some s =>
          if has_removeEventListener (object s) then
            let w := removeEventListener sid ev_open w in
            let w := removeEventListener sid ev_error w in
            let w := removeEventListener sid ev_close w in
            removeEventListener sid ev_message w
          else if has_removeListener (object s) then
            let w := removeListener sid ev_open w in
            let w := removeListener sid ev_error w in
            let w := removeListener sid ev_close w in
            removeListener sid ev_message w
          else w
      end
  end.

Definition _disconnect (w : World) : World :=
  let w := match _reconnectTimeout (this w) with
           | Some h => set_reconnectTimeout None (clearTimeout h w)
           | None => w
           end in
  (* try { this._socket.close() } catch (error) { } *)
  let w := match _socket (this w) with
           | Some sid => snd (socket_close sid w)
           | None => w
           end in
  set_socket None w.

Definition _handleOpen (w : World) : World :=
  emit Connect (set_state connected w).

(** The function given to [setTimeout] in [_retryConnection]. *)
Definition retry_callback (w : World) : World :=
  let w := set_reconnectTimeout None w in
  let w := set_state connecting w in
  _connect w.

Definition _retryConnection (w : World) : World :=
  if bool_decide (_state (this w) ≠ retrying) then
    let w := set_state retrying w in
    let '(h, w) := setTimeout 2000 w in
    set_reconnectTimeout (Some h) w
  else w.

Definition _handleDisconnect (w : World) : World :=
  let stateAtDisconnectTime := _state (this w) in
  let w := set_state unconnected w in
  let w := _teardown w in
  let w := if _active (this w) then _retryConnection w else w in
  if bool_decide (stateAtDisconnectTime = connected) then emit Disconnect w else w.

Definition _handleError (error : string) (w : World) : World :=
  if on_error w then _handleDisconnect (emit (Error error) w)
  else
    (* [emit('error', error)] throws: [_handleDisconnect] is not reached *)
    throw (UnhandledError error) w.

(** *** Public methods *)

Definition start (w : World) : World :=
  if negb (_active (this w)) then _connect (set_active true w) else w.

Definition stop (w : World) : World :=
  if _active (this w) then _disconnect (set_active false w) else w.

(** [this._socket ? this._socket.readyState : null] *)
Definition current_readyState (w : World) : option Z :=
  match _socket (this w) with
  | Some sid => (readyState ∘ object) <$> heap w !! sid
  | None => None
  end.

Definition send (message : string) (w : World) : Completion * World :=
  if bool_decide (_state (this w) ≠ connected) then
    (Threw (SocketTransportStateError (_state (this w)) (current_readyState w)), w)
  else
    let w := emit (SendNote message) w in
    match _socket (this w) with
    | None =>
        (* [this._socket.send] on null throws inside the try; the catch block
           reads [this._socket.readyState] and throws again. *)
        (Threw TypeError, w)
    | Some sid =>
        match socket_send sid message w with
        | (Returned, w) => (Returned, w)
        | (Threw _, w) =>
            (Threw (SocketTransportStateError (_state (this w)) (current_readyState w)), w)
        end
    end.

(** ** Events *)

Inductive SocketEvent :=
| OpenEvent
| ErrorEvent (error : string)
| CloseEvent
| MessageEvent (data : string).

Definition event_type (e : SocketEvent) : EventName :=
  match e with
  | OpenEvent => ev_open
  | ErrorEvent _ => ev_error
  | CloseEvent => ev_close
  | MessageEvent _ => ev_message
  end.

(** [_standardListeners]. *)
Definition listener (e : SocketEvent) (w : World) : World :=
  match e with
  | OpenEvent => _handleOpen w
  | ErrorEvent error => _handleError error w
  | CloseEvent => _handleDisconnect w
  | MessageEvent data => emit (Message data) w
  end.

(** Is the transport's listener for [ev] registered on socket [sid]? *)
Definition listening (sid : nat) (ev : EventName) (w : World) : bool :=
  match heap w !! sid with
  | Some s => bool_decide (ev ∈ attached s)
  | None => false
  end.

Definition dispatch (sid : nat) (e : SocketEvent) (w : World) : World :=
  if listening sid (event_type e) w then listener e w else w.

Definition is_pending (h : positive) (w : World) : bool :=
  bool_decide (h ∈ handle <$> pending w).

Definition fire (h : positive) (w : World) : World :=
  if is_pending h w then retry_callback (clearTimeout h w) else w.

Inductive Event :=
| Call_start
| Call_stop
| Call_send (message : string)
| Fire (sid : nat) (e : SocketEvent)
| Timeout (h : positive)
| Env_socket (sid : nat) (o : SocketObject)
| Call_on_error
| Call_off_error.

Definition step (e : Event) (w : World) : World :=
  match e with
  | Call_start => start w
  | Call_stop => stop w
  | Call_send message => snd (send message w)
  | Fire sid e => dispatch sid e w
  | Timeout h => fire h w
  | Env_socket sid o => set_heap (alter (λ s, mkSocket o (attached s)) sid (heap w)) w
  | Call_on_error => set_on_error true w
  | Call_off_error => set_on_error false w
  end.

Definition run (evs : list Event) (w : World) : World :=
  foldl (λ w e, step e w) w evs.

(** The worlds the program can be in. *)
Definition reachable (w : World) : Prop :=
  ∃ URL t evs, new_SocketTransport URL = Some t ∧ w = run evs (initial t).

End Transport.

(** A browser-like socket: starts at [CONNECTING], has [removeEventListener]. *)
Definition WebSocket (url : string) : option SocketObject :=
  Some (mkSocketObject 0 true false false false false).

(** A socket-like object with neither removal method. *)
Definition BareSocket (url : string) : option SocketObject :=
  Some (mkSocketObject 0 false false false false false).

(** A socket in the manner of [ws] 0.x: no [removeEventListener], and a
    [removeListener] that does not find a listener registered through
    [addEventListener], which wrapped it. *)
Definition WrappingSocket (url : string) : option SocketObject :=
  Some (mkSocketObject 0 false true false false false).

Definition ws_url : string := "ws://[::1]:8865".

Definition transport0 : SocketTransport :=
  mkSocketTransport ws_url None unconnected false None.

(** Number of notifications equal to [n] in a trace. *)
Definition occurrences (n : Notification) (l : list Notification) : nat :=
  length (filter (λ x, x = n) l).

(** Calls of a given kind made on socket [sid]. *)
Definition is_add (sid : nat) (c : SocketCall) : bool :=
  match c with AddEventListener s _ => bool_decide (s = sid) | _ => false end.

Definition is_remove (sid : nat) (c : SocketCall) : bool :=
  match c with
  | RemoveEventListener s _ | RemoveListener s _ => bool_decide (s = sid)
  | _ => false
  end.

Definition count_calls (p : SocketCall → bool) (w : World) : nat :=
  length (List.filter p (calls w)).

(** The notifications one event produces, read off the handlers. *)
Definition notifications (e : Event) (w : World) : list Notification :=
  let lost := if bool_decide (_state (this w) = connected) then [Disconnect] else [] in
  match e with
  | Call_send message =>
      if bool_decide (_state (this w) ≠ connected) then [] else [SendNote message]
  | Fire sid ev =>
      if listening sid (event_type ev) w then
        match ev with
        | OpenEvent => [Connect]
        | ErrorEvent error => if on_error w then Error error :: lost else []
        | CloseEvent => lost
        | MessageEvent data => [Message data]
        end
      else []
  | _ => []
  end.

(** Does the event make [_handleDisconnect] run? *)
Definition handles_disconnect (e : Event) (w : World) : bool :=
  match e with
  | Fire sid (ErrorEvent _) => listening sid ev_error w && on_error w
  | Fire sid CloseEvent => listening sid ev_close w
  | _ => false
  end.

(** Does the event make [_handleOpen] run? *)
Definition handles_open (e : Event) (w : World) : bool :=
  match e with
  | Fire sid OpenEvent => listening sid ev_open w
  | _ => false
  end.

(** The four listeners in the order [_setup] registers them. *)
Definition all_listeners : list EventName :=
  [ev_open; ev_error; ev_close; ev_message].

Definition is_new (c : SocketCall) : bool :=
  match c with New _ _ => true | _ => false end.

Definition is_close (c : SocketCall) : bool :=
  match c with Close _ => true | _ => false end.

Definition is_socket_send (c : SocketCall) : bool :=
  match c with Send _ _ => true | _ => false end.

(** The calls [_connect] makes, on the socket it constructs. *)
Definition connect_requests
    (SocketConstructor : string → option SocketObject) (w : World) : list SocketCall :=
  match SocketConstructor (_URL (this w)) with
  | None => []
  | Some _ =>
      let sid := length (heap w) in
      [New sid (_URL (this w)); AddEventListener sid ev_open;
       AddEventListener sid ev_error; AddEventListener sid ev_close;
       AddEventListener sid ev_message]
  end.

(** The calls [_teardown] makes, on the socket referenced. *)
Definition teardown_requests (w : World) : list SocketCall :=
  match _socket (this w) with
  | None => []
  | Some sid =>
      match heap w !! sid with
      | None => []
      | Some s =>
          if has_removeEventListener (object s) then
            RemoveEventListener sid <$> all_listeners
          else if has_removeListener (object s) then
            RemoveListener sid <$> all_listeners
          else []
      end
  end.

(** The calls one event makes on sockets, read off the methods. *)
Definition requests
    (SocketConstructor : string → option SocketObject) (e : Event) (w : World)
    : list SocketCall :=
  match e with
  | Call_start =>
      if _active (this w) then [] else connect_requests SocketConstructor w
  | Call_stop =>
      if _active (this w) then
        match _socket (this w) with
        | Some sid => match heap w !! sid with Some _ => [Close sid] | None => [] end
        | None => []
        end
      else []
  | Call_send message =>
      if bool_decide (_state (this w) ≠ connected) then []
      else match _socket (this w) with
           | Some sid =>
               match heap w !! sid with Some _ => [Send sid message] | None => [] end
           | None => []
           end
  | Fire sid ev =>
      if listening sid (event_type ev) w then
        match ev with
        | ErrorEvent _ => if on_error w then teardown_requests w else []
        | CloseEvent => teardown_requests w
        | _ => []
        end
      else []
  | Timeout h => if is_pending h w then connect_requests SocketConstructor w else []
  | _ => []
  end.

(** Pending timers have pairwise distinct handles, all handed out already. *)
Definition timers_fresh (w : World) : Prop :=
  NoDup (handle <$> pending w) ∧
  ∀ h, h ∈ handle <$> pending w → (h < next_handle w)%positive.

(** The invariant of the reachable worlds proved below. *)
Record coherent (w : World) : Prop := mkCoherent {
  socket_valid :
    ∀ sid, _socket (this w) = Some sid → sid < length (heap w);
  timeout_live :
    ∀ h, _reconnectTimeout (this w) = Some h →
         _active (this w) = true ∧
         (_state (this w) = retrying ∨ _state (this w) = connected) ∧
         is_pending h w = true
}.

(** The world of the manual test before any event: a new transport whose
    user has subscribed to ['error']. *)
Definition world0 : World := set_on_error true (initial transport0).

(** ** Frame lemmas: what each method leaves alone *)

Lemma teardown_this w : this (_teardown w) = this w.
Proof.
  unfold _teardown. destruct (_socket (this w)); [|done].
  destruct (heap w !! n); [|done].
  destruct (has_removeEventListener _); [done|].
  by destruct (has_removeListener _).
Qed.

Lemma teardown_heap_length w : length (heap (_teardown w)) = length (heap w).
Proof.
  unfold _teardown. destruct (_socket (this w)); [|done].
  destruct (heap w !! n); [|done].
  destruct (has_removeEventListener _); cbn; [by rewrite !length_alter|].
  destruct (has_removeListener _); cbn; [by rewrite !length_alter|done].
Qed.

Lemma teardown_timers w :
  pending (_teardown w) = pending w ∧ next_handle (_teardown w) = next_handle w.
Proof.
  unfold _teardown. destruct (_socket (this w)); [|done].
  destruct (heap w !! n); [|done].
  destruct (has_removeEventListener _); [done|].
  by destruct (has_removeListener _).
Qed.

Lemma teardown_emitted w : emitted (_teardown w) = emitted w.
Proof.
  unfold _teardown. destruct (_socket (this w)); [|done].
  destruct (heap w !! n); [|done].
  destruct (has_removeEventListener _); [done|].
  by destruct (has_removeListener _).
Qed.

Lemma retryConnection_emitted w : emitted (_retryConnection w) = emitted w.
Proof. unfold _retryConnection. by case_bool_decide. Qed.

Lemma handleDisconnect_emitted w :
  emitted (_handleDisconnect w) =
  emitted w ++ (if bool_decide (_state (this w) = connected) then [Disconnect] else []).
Proof.
  unfold _handleDisconnect.
  set (w1 := _teardown (set_state unconnected w)).
  assert (emitted w1 = emitted w) as E1 by (unfold w1; by rewrite teardown_emitted).
  assert (emitted (if _active (this w1) then _retryConnection w1 else w1) = emitted w) as E2.
  { destruct (_active (this w1)); [by rewrite retryConnection_emitted|done]. }
  case_bool_decide; cbn; rewrite E2; [done|by rewrite app_nil_r].
Qed.

Section Frames.
Variable SocketConstructor : string → option SocketObject.

Lemma connect_this w :
  this (_connect SocketConstructor w) =
  match SocketConstructor (_URL (this w)) with
  | Some _ =>
      mkSocketTransport (_URL (this w)) (Some (length (heap w))) (_state (this w))
                        (_active (this w)) (_reconnectTimeout (this w))
  | None => this w
  end.
Proof. unfold _connect. by destruct (SocketConstructor _). Qed.

(** Whether or not the constructor throws, [_connect] leaves these alone. *)
Lemma connect_fields w :
  _URL (this (_connect SocketConstructor w)) = _URL (this w) ∧
  _state (this (_connect SocketConstructor w)) = _state (this w) ∧
  _active (this (_connect SocketConstructor w)) = _active (this w) ∧
  _reconnectTimeout (this (_connect SocketConstructor w)) = _reconnectTimeout (this w).
Proof. rewrite connect_this. by destruct (SocketConstructor _). Qed.

Lemma connect_heap_length w :
  length (heap (_connect SocketConstructor w)) =
  length (heap w) +
  match SocketConstructor (_URL (this w)) with Some _ => 1 | None => 0 end.
Proof.
  unfold _connect, _setup. destruct (SocketConstructor _); cbn; [|lia].
  rewrite !length_alter, length_app; cbn. lia.
Qed.

Lemma connect_timers w :
  pending (_connect SocketConstructor w) = pending w ∧
  next_handle (_connect SocketConstructor w) = next_handle w.
Proof. unfold _connect. by destruct (SocketConstructor _). Qed.

Lemma connect_emitted w : emitted (_connect SocketConstructor w) = emitted w.
Proof. unfold _connect. by destruct (SocketConstructor _). Qed.

(** A connect attempt registers all four listeners on the socket it made. *)
Lemma connect_listening w ev o :
  SocketConstructor (_URL (this w)) = Some o →
  listening (length (heap w)) ev (_connect SocketConstructor w) = true.
Proof.
  intros Eo. unfold listening, _connect, _setup. rewrite Eo; cbn.
  rewrite !list_lookup_alter_eq, lookup_app_r by lia.
  rewrite Nat.sub_diag; cbn. by destruct ev.
Qed.

End Frames.

(** ** What the handlers do to the transport and to the timers *)

(** [_retryConnection] called from [_handleDisconnect] always finds the
    state just reset to [unconnected]. *)
Lemma handleDisconnect_this w :
  this (_handleDisconnect w) =
  if _active (this w) then
    mkSocketTransport (_URL (this w)) (_socket (this w)) retrying true
                      (Some (next_handle w))
  else
    mkSocketTransport (_URL (this w)) (_socket (this w)) unconnected false
                      (_reconnectTimeout (this w)).
Proof.
  unfold _handleDisconnect.
  set (w1 := _teardown (set_state unconnected w)).
  assert (this w1 = this (set_state unconnected w)) as E by apply teardown_this.
  destruct (teardown_timers (set_state unconnected w)) as [_ En]. fold w1 in En.
  assert (∀ b n v, this (if b : bool then emit n v else v) = this v) as Hemit
    by (by intros []).
  rewrite Hemit, E; cbn.
  destruct (_active (this w)) eqn:Ea.
  - unfold _retryConnection. rewrite E; cbn.
    rewrite bool_decide_eq_true_2 by done; cbn.
    rewrite E, En; cbn. by rewrite Ea.
  - rewrite E; cbn. by rewrite Ea.
Qed.

Lemma handleDisconnect_pending w :
  pending (_handleDisconnect w) =
  if _active (this w) then pending w ++ [mkTimer (next_handle w) 2000] else pending w.
Proof.
  unfold _handleDisconnect.
  set (w1 := _teardown (set_state unconnected w)).
  assert (this w1 = this (set_state unconnected w)) as E by apply teardown_this.
  destruct (teardown_timers (set_state unconnected w)) as [Ep En].
  fold w1 in Ep, En.
  assert (∀ b n v, pending (if b : bool then emit n v else v) = pending v) as Hemit
    by (by intros []).
  rewrite Hemit, E; cbn.
  destruct (_active (this w)) eqn:Ea; [|by rewrite Ep].
  unfold _retryConnection. rewrite E; cbn.
  rewrite bool_decide_eq_true_2 by done; cbn. by rewrite Ep, En.
Qed.

Lemma handleDisconnect_heap_length w :
  length (heap (_handleDisconnect w)) = length (heap w).
Proof.
  unfold _handleDisconnect.
  set (w1 := _teardown (set_state unconnected w)).
  assert (length (heap w1) = length (heap w)) as E
    by (unfold w1; by rewrite teardown_heap_length).
  assert (∀ b n v, heap (if b : bool then emit n v else v) = heap v) as Hemit
    by (by intros []).
  rewrite Hemit.
  destruct (_active (this w1)); [|done].
  unfold _retryConnection. by case_bool_decide.
Qed.

Lemma disconnect_this w :
  this (_disconnect w) =
  mkSocketTransport (_URL (this w)) None (_state (this w)) (_active (this w)) None.
Proof.
  unfold _disconnect, socket_close.
  destruct (_reconnectTimeout (this w)) eqn:Er; cbn;
    (destruct (_socket (this w)) as [sid|]; cbn; [destruct (heap w !! sid)|]);
    cbn; by rewrite ?Er.
Qed.

Lemma disconnect_heap w : heap (_disconnect w) = heap w.
Proof.
  unfold _disconnect, socket_close.
  destruct (_reconnectTimeout (this w)); cbn;
    (destruct (_socket (this w)) as [sid|]; cbn; [destruct (heap w !! sid)|]); done.
Qed.

Lemma disconnect_pending w :
  pending (_disconnect w) =
  match _reconnectTimeout (this w) with
  | Some h => filter (λ t, handle t ≠ h) (pending w)
  | None => pending w
  end.
Proof.
  unfold _disconnect, socket_close.
  destruct (_reconnectTimeout (this w)); cbn;
    (destruct (_socket (this w)) as [sid|]; cbn; [destruct (heap w !! sid)|]); done.
Qed.

Lemma disconnect_emitted w : emitted (_disconnect w) = emitted w.
Proof.
  unfold _disconnect, socket_close.
  destruct (_reconnectTimeout (this w)); cbn;
    (destruct (_socket (this w)) as [sid|]; cbn; [destruct (heap w !! sid)|]); done.
Qed.

(** [send] touches neither the transport's fields, nor the sockets' state,
    nor the timers. *)
Lemma send_frame message w :
  this (snd (send message w)) = this w ∧
  heap (snd (send message w)) = heap w ∧
  pending (snd (send message w)) = pending w.
Proof.
  unfold send. case_bool_decide; [done|].
  cbn. destruct (_socket (this w)); [|done].
  unfold socket_send; cbn.
  destruct (heap w !! n); [|done].
  by destruct (send_throws _).
Qed.

Lemma is_pending_app h l w t :
  pending w = l ++ [t] → handle t = h → is_pending h w = true.
Proof.
  intros E <-. unfold is_pending. rewrite E, fmap_app.
  apply bool_decide_eq_true. apply elem_of_app. right. cbn. apply list_elem_of_here.
Qed.

(** ** An invariant of the reachable worlds *)

Section Invariant.
Variable SocketConstructor : string → option SocketObject.

#[local] Abbreviation step := (step SocketConstructor).
#[local] Abbreviation run := (run SocketConstructor).

Lemma coherent_initial URL t :
  new_SocketTransport URL = Some t → coherent (initial t).
Proof.
  destruct URL; [done|]. intros [= <-]. by split; cbn.
Qed.

Lemma coherent_connect w :
  coherent w → coherent (_connect SocketConstructor w).
Proof.
  intros [Hs Ht].
  destruct (connect_fields SocketConstructor w) as (_ & Est & Ea & Er).
  destruct (connect_timers SocketConstructor w) as [Ep _].
  split.
  - intros sid. rewrite connect_this, connect_heap_length.
    destruct (SocketConstructor _); cbn.
    + intros [= <-]. lia.
    + intros Es. specialize (Hs sid Es). lia.
  - intros h. rewrite Est, Ea, Er. unfold is_pending. rewrite Ep. apply Ht.
Qed.

Lemma coherent_start w : coherent w → coherent (start SocketConstructor w).
Proof.
  intros Hc. unfold start.
  destruct (_active (this w)) eqn:Ea; cbn [negb]; [done|].
  apply coherent_connect.
  destruct Hc as [Hs Ht]. split; [done|].
  intros h Eh. destruct (Ht h Eh) as [? _]. cbn in *. congruence.
Qed.

Lemma coherent_stop w : coherent w → coherent (stop w).
Proof.
  intros Hc. unfold stop. destruct (_active (this w)); [|done].
  split; rewrite disconnect_this; cbn; done.
Qed.

Lemma coherent_send message w : coherent w → coherent (snd (send message w)).
Proof.
  intros [Hs Ht]. destruct (send_frame message w) as (Et & Eh & Ep).
  split; rewrite Et; [by rewrite Eh|].
  intros h Eq. destruct (Ht h Eq) as (? & ? & ?). repeat split; try done.
  unfold is_pending in *. by rewrite Ep.
Qed.

Lemma coherent_handleDisconnect w : coherent w → coherent (_handleDisconnect w).
Proof.
  intros [Hs Ht].
  split; rewrite handleDisconnect_this.
  - rewrite handleDisconnect_heap_length. by destruct (_active (this w)).
  - intros h. destruct (_active (this w)) eqn:Ea; cbn.
    + intros [= <-]. repeat split; [by left|].
      eapply is_pending_app;
        [rewrite handleDisconnect_pending, Ea; reflexivity | done].
    + intros Eq. destruct (Ht h Eq) as [? _]. congruence.
Qed.

Lemma coherent_emit n w : coherent w → coherent (emit n w).
Proof. by intros []. Qed.

Lemma coherent_throw e w : coherent w → coherent (throw e w).
Proof. by intros []. Qed.

Lemma coherent_dispatch sid e w : coherent w → coherent (dispatch sid e w).
Proof.
  intros Hc. unfold dispatch. destruct (listening _ _ _); [|done].
  destruct e; cbn.
  - destruct Hc as [Hs Ht]. split; cbn; try done.
    intros h Eq. destruct (Ht h Eq) as (? & ? & ?). by repeat split; [|right|].
  - unfold _handleError. destruct (on_error w); [|by apply coherent_throw].
    by apply coherent_handleDisconnect, coherent_emit.
  - by apply coherent_handleDisconnect.
  - by apply coherent_emit.
Qed.

Lemma coherent_fire h w : coherent w → coherent (fire SocketConstructor h w).
Proof.
  intros [Hs Ht]. unfold fire. destruct (is_pending h w); [|done].
  unfold retry_callback. apply coherent_connect.
  split; [done|]. by intros h'.
Qed.

Lemma coherent_step e w : coherent w → coherent (step e w).
Proof.
  intros Hc. destruct e; cbn.
  - by apply coherent_start.
  - by apply coherent_stop.
  - by apply coherent_send.
  - by apply coherent_dispatch.
  - by apply coherent_fire.
  - destruct Hc as [Hs Ht]. split; cbn; try done.
    intros s. rewrite length_alter. apply Hs.
  - by destruct Hc.
  - by destruct Hc.
Qed.

Lemma coherent_run evs w : coherent w → coherent (run evs w).
Proof.
  revert w. induction evs as [|e evs IH]; intros w Hc; [done|].
  cbn. apply IH. by apply coherent_step.
Qed.

Lemma reachable_coherent w : reachable SocketConstructor w → coherent w.
Proof.
  intros (URL & t & evs & Hnew & ->).
  eapply coherent_run, coherent_initial. done.
Qed.

End Invariant.

(** ** More facts about single methods *)

Lemma not_pending_after_clear h w : is_pending h (clearTimeout h w) = false.
Proof.
  unfold is_pending, clearTimeout; cbn. apply bool_decide_eq_false.
  intros (t & -> & Hin)%list_elem_of_fmap.
  apply list_elem_of_filter in Hin as [Hne _]. by apply Hne.
Qed.

Lemma disconnect_calls w :
  calls (_disconnect w) =
  calls w ++ match _socket (this w) with
             | Some sid => match heap w !! sid with Some _ => [Close sid] | None => [] end
             | None => []
             end.
Proof.
  unfold _disconnect, socket_close.
  destruct (_reconnectTimeout (this w)); cbn;
    (destruct (_socket (this w)) as [sid|]; cbn; [destruct (heap w !! sid)|]);
    cbn; by rewrite ?app_nil_r.
Qed.

(** The guard of [_retryConnection], taken alone, does what it says. *)
Lemma retryConnection_noop w :
  _state (this w) = retrying → _retryConnection w = w.
Proof. intros E. unfold _retryConnection. by rewrite E. Qed.

Lemma retryConnection_schedules w :
  _state (this w) ≠ retrying →
  _state (this (_retryConnection w)) = retrying ∧
  _reconnectTimeout (this (_retryConnection w)) = Some (next_handle w) ∧
  pending (_retryConnection w) = pending w ++ [mkTimer (next_handle w) 2000].
Proof.
  intros Hne. unfold _retryConnection. by rewrite bool_decide_eq_true_2.
Qed.

(** [stop] never unregisters a listener. *)
Lemma stop_heap w : heap (stop w) = heap w.
Proof. unfold stop. destruct (_active (this w)); [|done]. by rewrite disconnect_heap. Qed.

Lemma stop_never_detaches sid w :
  count_calls (is_remove sid) (stop w) = count_calls (is_remove sid) w.
Proof.
  unfold stop. destruct (_active (this w)); [|done].
  unfold count_calls. rewrite disconnect_calls; cbn.
  rewrite List.filter_app, length_app.
  destruct (_socket (this w)) as [s|]; cbn; [destruct (heap w !! s)|]; cbn; lia.
Qed.

Section Traces.
Variable SocketConstructor : string → option SocketObject.

(** Every event extends the trace by exactly [notifications]. *)
Lemma step_emitted e w :
  emitted (step SocketConstructor e w) = emitted w ++ notifications e w.
Proof.
  destruct e as [| |message|sid ev|h|sid o| |]; cbn.
  - rewrite app_nil_r. unfold start.
    destruct (_active (this w)); cbn [negb]; [done|]. by rewrite connect_emitted.
  - rewrite app_nil_r. unfold stop.
    destruct (_active (this w)); [|done]. by rewrite disconnect_emitted.
  - unfold send. case_bool_decide; cbn; [by rewrite app_nil_r|].
    destruct (_socket (this w)) as [sid|]; [|done].
    unfold socket_send; cbn. destruct (heap w !! sid); [|done].
    by destruct (send_throws _).
  - unfold dispatch. destruct (listening _ _ _); [|by rewrite app_nil_r].
    destruct ev; cbn; try done.
    + unfold _handleError. destruct (on_error w); [|by rewrite app_nil_r].
      rewrite handleDisconnect_emitted; cbn. by rewrite <- app_assoc.
    + by rewrite handleDisconnect_emitted.
  - rewrite app_nil_r. unfold fire. destruct (is_pending h w); [|done].
    unfold retry_callback. by rewrite connect_emitted.
  - by rewrite app_nil_r.
  - by rewrite app_nil_r.
  - by rewrite app_nil_r.
Qed.

Lemma notifications_disconnect e w :
  occurrences Disconnect (notifications e w) =
  if handles_disconnect e w && bool_decide (_state (this w) = connected)
  then 1 else 0.
Proof.
  destruct e as [| |message|sid ev|h|sid o| |]; cbn; try done.
  - by case_bool_decide.
  - destruct ev; cbn; destruct (listening _ _ _); cbn; try done;
      try destruct (on_error w); cbn; try done; by case_bool_decide.
Qed.

Lemma notifications_connect e w :
  occurrences Connect (notifications e w) = if handles_open e w then 1 else 0.
Proof.
  destruct e as [| |message|sid ev|h|sid o| |]; cbn; try done.
  - by case_bool_decide.
  - destruct ev; cbn; destruct (listening _ _ _); cbn; try done;
      try destruct (on_error w); cbn; try done; by case_bool_decide.
Qed.

Lemma occurrences_app n l k :
  occurrences n (l ++ k) = occurrences n l + occurrences n k.
Proof. unfold occurrences. by rewrite filter_app, length_app. Qed.

End Traces.

(** ** Reachability of the concrete runs used below *)

Lemma reachable_run evs : reachable WebSocket (run WebSocket evs world0).
Proof. by exists ws_url, transport0, (Call_on_error :: evs). Qed.

Lemma reachable_run_bare evs : reachable BareSocket (run BareSocket evs world0).
Proof. by exists ws_url, transport0, (Call_on_error :: evs). Qed.

(** ** The guarded [send] *)

(** C1. In any state other than [connected], [send] raises a
    [SocketTransportStateError] carrying the current state and the socket's
    [readyState] ([null] when there is no socket); the world is left as it
    was, so nothing is emitted and no call reaches a socket. *)
Theorem send_not_connected (message : string) (w : World) :
  _state (this w) ≠ connected →
  ∃ rs : option Z,
    send message w = (Threw (SocketTransportStateError (_state (this w)) rs), w) ∧
    (_socket (this w) = None → rs = None) ∧
    (∀ sid s, _socket (this w) = Some sid → heap w !! sid = Some s →
              rs = Some (readyState (object s))).
Proof.
  intros Hne. exists (current_readyState w). split; [|split].
  - unfold send. by rewrite bool_decide_eq_true_2.
  - unfold current_readyState. by intros ->.
  - unfold current_readyState. by intros sid s -> ->.
Qed.

Lemma send_not_connected_witness :
  ∃ rs : option Z,
    send "hey there" (run WebSocket [Call_start] world0) =
      (Threw (SocketTransportStateError unconnected rs),
       run WebSocket [Call_start] world0) ∧
    (_socket (this (run WebSocket [Call_start] world0)) = None → rs = None) ∧
    (∀ sid s, _socket (this (run WebSocket [Call_start] world0)) = Some sid →
              heap (run WebSocket [Call_start] world0) !! sid = Some s →
              rs = Some (readyState (object s))).
Proof.
  apply (send_not_connected "hey there" (run WebSocket [Call_start] world0)).
  vm_compute. discriminate.
Defined.

(** C10. [send] leaves every field of the transport as it found it,
    whatever way it completes; the sockets' listeners and the timers are
    untouched as well. *)
Theorem send_leaves_fields (message : string) (w : World) :
  let w' := snd (send message w) in
  _state (this w') = _state (this w) ∧
  _socket (this w') = _socket (this w) ∧
  _active (this w') = _active (this w) ∧
  _reconnectTimeout (this w') = _reconnectTimeout (this w) ∧
  heap w' = heap w ∧
  pending w' = pending w.
Proof.
  cbn. destruct (send_frame message w) as (-> & -> & ->). done.
Qed.

(** ** [stop] *)

(** C3, as the code has it. [stop] on an active transport clears the
    pending timer, calls [close] on the socket (whether or not the call
    throws), drops the reference and marks the transport inactive; it emits
    nothing and leaves [_state] as it was. *)
Theorem stop_when_active (w : World) :
  _active (this w) = true →
  let w' := stop w in
  _state (this w') = _state (this w) ∧
  _reconnectTimeout (this w') = None ∧
  (∀ h, _reconnectTimeout (this w) = Some h → is_pending h w' = false) ∧
  (∀ sid s, _socket (this w) = Some sid → heap w !! sid = Some s →
            calls w' = calls w ++ [Close sid]) ∧
  _socket (this w') = None ∧
  _active (this w') = false ∧
  emitted w' = emitted w.
Proof.
  intros Ha. cbn. unfold stop. rewrite Ha.
  rewrite disconnect_this, disconnect_emitted, disconnect_calls; cbn.
  repeat split.
  - intros h Eh. unfold is_pending. rewrite disconnect_pending; cbn. rewrite Eh.
    apply (not_pending_after_clear h w).
  - by intros sid s -> ->.
Qed.

Lemma stop_when_active_witness :
  let w := run WebSocket [Call_start; Fire 0 CloseEvent] world0 in
  (_active (this w) = true ∧ _state (this w) = retrying ∧
   _reconnectTimeout (this w) = Some 1%positive) ∧
  _state (this (stop w)) = retrying ∧
  _reconnectTimeout (this (stop w)) = None ∧
  is_pending 1 (stop w) = false ∧
  calls (stop w) = calls w ++ [Close 0] ∧
  _socket (this (stop w)) = None.
Proof.
  cbn zeta. split; [by vm_compute|].
  destruct (stop_when_active (run WebSocket [Call_start; Fire 0 CloseEvent] world0))
    as (Hs & Ht & Hp & Hc & Hk & _); [by vm_compute|].
  split; [by rewrite Hs; vm_compute|].
  split; [exact Ht|].
  split; [apply Hp; by vm_compute|].
  split; [eapply Hc; by vm_compute|].
  exact Hk.
Defined.

(** C3, as stated, fails: stopping a connected transport leaves [_state]
    at [connected]. *)
Lemma stop_leaves_state :
  ¬ (∀ w, reachable WebSocket w → _active (this w) = true →
          _state (this (stop w)) = unconnected).
Proof.
  intros H.
  specialize (H (run WebSocket [Call_start; Fire 0 OpenEvent] world0)
                (reachable_run _) eq_refl).
  vm_compute in H. discriminate.
Qed.

(** ** The socket reference *)




(** ** The retry timer *)

(** C7, as stated, fails: [stop] during a retry delay clears the handle and
    leaves [_state] at [retrying]. *)
Lemma retrying_without_handle :
  ¬ (∀ w, reachable WebSocket w →
          (_reconnectTimeout (this w) ≠ None ↔ _state (this w) = retrying)).
Proof.
  intros H.
  destruct (H (run WebSocket [Call_start; Fire 0 CloseEvent; Call_stop] world0)
              (reachable_run _)) as [_ E].
  apply E; reflexivity.
Qed.

(** C7, as the code has it. In every reachable world a handle that is set
    names a timer still pending, the transport is active, and [_state] is
    [retrying] or, after an open event handled since, [connected].  The
    handle is set when [_retryConnection] moves to [retrying], and cleared
    by [stop] (which keeps [_state]) and by the timer firing. *)
Theorem reconnectTimeout_live (SocketConstructor : string → option SocketObject) (w : World) :
  reachable SocketConstructor w →
  (∀ h, _reconnectTimeout (this w) = Some h →
        is_pending h w = true ∧ _active (this w) = true ∧
        (_state (this w) = retrying ∨ _state (this w) = connected)) ∧
  (_state (this w) ≠ retrying →
     _state (this (_retryConnection w)) = retrying ∧
     _reconnectTimeout (this (_retryConnection w)) = Some (next_handle w)) ∧
  (_active (this w) = true →
     _reconnectTimeout (this (stop w)) = None ∧
     _state (this (stop w)) = _state (this w) ∧
     ∀ h, _reconnectTimeout (this w) = Some h → is_pending h (stop w) = false) ∧
  (∀ h, is_pending h w = true →
        _reconnectTimeout (this (fire SocketConstructor h w)) = None ∧
        is_pending h (fire SocketConstructor h w) = false).
Proof.
  intros Hr. destruct (reachable_coherent _ _ Hr) as [_ Hlive].
  split; [|split; [|split]].
  - intros h Eh. destruct (Hlive h Eh) as (? & ? & ?). done.
  - intros Hne. destruct (retryConnection_schedules w Hne) as (? & ? & _). done.
  - intros Ha. unfold stop. rewrite Ha, disconnect_this; cbn.
    repeat split. intros h Eh. unfold is_pending.
    rewrite disconnect_pending; cbn. rewrite Eh.
    apply (not_pending_after_clear h w).
  - intros h Hp. unfold fire. rewrite Hp. split.
    { unfold retry_callback.
      by destruct (connect_fields SocketConstructor
                     (set_state connecting (set_reconnectTimeout None (clearTimeout h w))))
        as (_ & _ & _ & ->). }
    unfold retry_callback, is_pending.
    destruct (connect_timers SocketConstructor
                (set_state connecting (set_reconnectTimeout None (clearTimeout h w))))
      as [-> _].
    apply (not_pending_after_clear h w).
Qed.

Lemma reconnectTimeout_live_witness :
  let w := run WebSocket [Call_start; Fire 0 OpenEvent; Fire 0 CloseEvent] world0 in
  _reconnectTimeout (this w) = Some 1%positive ∧
  is_pending 1 w = true ∧ _active (this w) = true ∧
  (_state (this w) = retrying ∨ _state (this w) = connected) ∧
  _reconnectTimeout (this (stop w)) = None ∧
  _reconnectTimeout (this (fire WebSocket 1 w)) = None.
Proof.
  cbn zeta.
  destruct (reconnectTimeout_live WebSocket
              (run WebSocket [Call_start; Fire 0 OpenEvent; Fire 0 CloseEvent] world0))
    as (Hl & _ & Hs & Hf).
  - apply reachable_run.
  - destruct (Hl 1%positive eq_refl) as (Hp & Ha & Hst).
    destruct (Hs eq_refl) as (Hn & _).
    destruct (Hf 1%positive eq_refl) as (Hn' & _).
    repeat split; assumption.
Defined.

(** ** Listener bookkeeping *)

(** C4. What the code does on [start(); stop(); start()] with a browser
    socket: the first socket keeps all four listeners (four registrations,
    no removal), because [_disconnect] never calls [_teardown].  When that
    socket's close event then arrives, [_teardown] runs on the socket
    referenced at that time, the second one, which loses its listeners
    while the first keeps them. *)
Theorem stop_start_leaves_listeners :
  let w := run WebSocket [Call_start; Call_stop; Call_start] world0 in
  let w' := step WebSocket (Fire 0 CloseEvent) w in
  _socket (this w) = Some 1 ∧
  attached <$> heap w !! 0 = Some [ev_open; ev_error; ev_close; ev_message] ∧
  count_calls (is_add 0) w = 4 ∧
  count_calls (is_remove 0) w = 0 ∧
  attached <$> heap w' !! 0 = Some [ev_open; ev_error; ev_close; ev_message] ∧
  attached <$> heap w' !! 1 = Some [] ∧
  count_calls (is_remove 0) w' = 0 ∧
  count_calls (is_remove 1) w' = 4.
Proof. vm_compute. repeat split. Qed.

(** ** Retry scheduling *)

(** C6. What the code does when a second failure event is handled during
    the retry delay.  [_handleDisconnect] resets [_state] to [unconnected]
    before it calls [_retryConnection], so the [retrying] guard never
    applies there and a second timer is set.  First run: a browser socket
    closed by [stop] while connecting reports error then close after the
    next [start].  Second run: a socket without a removal method reports
    error then close for one failure. *)
Theorem second_failure_sets_second_timer :
  let w1 := run WebSocket [Call_start; Call_stop; Call_start;
                           Fire 0 (ErrorEvent "closed before open")] world0 in
  let w2 := step WebSocket (Fire 0 CloseEvent) w1 in
  let b1 := run BareSocket [Call_start; Fire 0 (ErrorEvent "ECONNREFUSED")] world0 in
  let b2 := step BareSocket (Fire 0 CloseEvent) b1 in
  (_state (this w1) = retrying ∧ pending w1 = [mkTimer 1 2000] ∧
   handles_disconnect (Fire 0 CloseEvent) w1 = true ∧
   pending w2 = [mkTimer 1 2000; mkTimer 2 2000]) ∧
  (_state (this b1) = retrying ∧ pending b1 = [mkTimer 1 2000] ∧
   handles_disconnect (Fire 0 CloseEvent) b1 = true ∧
   pending b2 = [mkTimer 1 2000; mkTimer 2 2000]).
Proof. vm_compute. repeat split. Qed.

(** Both timers then fire, and each constructs a socket. *)
Lemma both_timers_connect :
  let w := run WebSocket [Call_start; Call_stop; Call_start;
                          Fire 0 (ErrorEvent "closed before open");
                          Fire 0 CloseEvent; Timeout 1; Timeout 2] world0 in
  length (heap w) = 4 ∧ _socket (this w) = Some 3 ∧
  attached <$> heap w !! 2 = Some [ev_open; ev_error; ev_close; ev_message].
Proof. vm_compute. repeat split. Qed.

(** On an active transport every run of [_handleDisconnect] sets a timer,
    whatever [_state] was. *)
Lemma handleDisconnect_always_schedules w :
  _active (this w) = true →
  pending (_handleDisconnect w) = pending w ++ [mkTimer (next_handle w) 2000].
Proof. intros Ha. by rewrite handleDisconnect_pending, Ha. Qed.

(** A timer orphaned this way survives [stop], whose [clearTimeout] only
    reaches the handle stored last; when it fires, an inactive transport
    constructs a socket. *)
Lemma orphan_timer_connects_after_stop :
  let w := run WebSocket [Call_start; Call_stop; Call_start;
                          Fire 0 (ErrorEvent "closed before open");
                          Fire 0 CloseEvent; Call_stop; Timeout 1] world0 in
  _active (this w) = false ∧ _socket (this w) = Some 2 ∧
  _state (this w) = connecting.
Proof. vm_compute. repeat split. Qed.

(** With a removal method and no listener left elsewhere, the second event
    of one failure is not delivered at all. *)
Lemma same_failure_not_redelivered :
  let w := run WebSocket [Call_start; Fire 0 (ErrorEvent "ECONNREFUSED")] world0 in
  handles_disconnect (Fire 0 CloseEvent) w = false ∧
  pending (step WebSocket (Fire 0 CloseEvent) w) = [mkTimer 1 2000].
Proof. vm_compute. repeat split. Qed.

(** ** Notifications *)

Section Notifications.
Variable SocketConstructor : string → option SocketObject.

#[local] Abbreviation step := (step SocketConstructor).

(** A handled open event always ends in [connected]. *)
Lemma handled_open_connects sid w :
  listening sid ev_open w = true →
  _state (this (dispatch sid OpenEvent w)) = connected ∧
  emitted (dispatch sid OpenEvent w) = emitted w ++ [Connect] ∧
  heap (dispatch sid OpenEvent w) = heap w.
Proof. intros Hl. unfold dispatch; cbn. by rewrite Hl. Qed.

(** C5. An event adds a [disconnect] notification exactly when it makes
    [_handleDisconnect] run while [_state] is [connected], and then it adds
    one.  ([_handleDisconnect] runs on a close event that finds the
    listener, and on an error event that finds the listener and an
    ['error'] subscriber: without one [emit] throws before it.)  So a
    close handled right after a handled open adds exactly one, and a close
    or error handled in [connecting] or [unconnected] adds none. *)
Theorem disconnect_iff_was_connected (w : World) :
  (∀ e, ∃ new,
      emitted (step e w) = emitted w ++ new ∧
      occurrences Disconnect new =
        if handles_disconnect e w && bool_decide (_state (this w) = connected)
        then 1 else 0) ∧
  (∀ sid,
      listening sid ev_open w = true →
      listening sid ev_close w = true →
      emitted (step (Fire sid CloseEvent) (step (Fire sid OpenEvent) w)) =
        emitted w ++ [Connect; Disconnect]) ∧
  (∀ e,
      _state (this w) = connecting ∨ _state (this w) = unconnected →
      handles_disconnect e w = true →
      occurrences Disconnect (emitted (step e w)) =
        occurrences Disconnect (emitted w)).
Proof.
  split; [|split].
  - intros e. exists (notifications e w).
    split; [apply step_emitted | apply notifications_disconnect].
  - intros sid Ho Hc.
    destruct (handled_open_connects sid w Ho) as (Est & Eem & Eh).
    rewrite step_emitted. cbn [notifications event_type step].
    unfold listening at 1. rewrite Eh. fold (listening sid ev_close w).
    rewrite Hc, Est, Eem. cbn. by rewrite <- app_assoc.
  - intros e Hst Hd.
    rewrite step_emitted, occurrences_app, notifications_disconnect, Hd.
    rewrite bool_decide_eq_false_2; [cbn; lia|].
    destruct Hst as [-> | ->]; discriminate.
Qed.

(** C8, as the code has it. An event adds a [connect] notification exactly
    when it makes [_handleOpen] run, and then it adds one and ends in
    [connected], whatever the state and the intent were before.  After a
    [start] that constructed a socket, one open event on the new socket
    gives [connected] and one [connect]. *)
Theorem connect_iff_open_handled (w : World) :
  (∀ e, ∃ new,
      emitted (step e w) = emitted w ++ new ∧
      occurrences Connect new = if handles_open e w then 1 else 0) ∧
  (∀ e, handles_open e w = true → _state (this (step e w)) = connected) ∧
  (_active (this w) = false →
   is_Some (SocketConstructor (_URL (this w))) →
   let w' := step (Fire (length (heap w)) OpenEvent) (step Call_start w) in
   _state (this w') = connected ∧ emitted w' = emitted w ++ [Connect]).
Proof.
  split; [|split].
  - intros e. exists (notifications e w).
    split; [apply step_emitted | apply notifications_connect].
  - intros [| | |sid [| | |]| | | |]; cbn; try done.
    intros Hl. by destruct (handled_open_connects sid w Hl) as (? & _).
  - intros Ha [o Eo]. cbn [step]. unfold start. rewrite Ha. cbn [negb].
    pose proof (connect_listening SocketConstructor (set_active true w) ev_open o Eo)
      as Hl.
    cbn [heap set_active] in Hl.
    destruct (handled_open_connects _ _ Hl) as (Est & Eem & _).
    by rewrite Est, Eem, connect_emitted.
Qed.

(** C9. A message event handled by the transport adds exactly one
    [message] notification carrying the event's data, and changes nothing
    else; one that finds no listener changes nothing at all.  A [start]
    that constructs a socket registers the listener on it. *)
Theorem message_passthrough (sid : nat) (P : string) (w : World) :
  let w' := step (Fire sid (MessageEvent P)) w in
  (listening sid ev_message w = true →
     emitted w' = emitted w ++ [Message P] ∧
     this w' = this w ∧ heap w' = heap w ∧ pending w' = pending w ∧
     calls w' = calls w) ∧
  (listening sid ev_message w = false → w' = w) ∧
  (_active (this w) = false →
     is_Some (SocketConstructor (_URL (this w))) →
     listening (length (heap w)) ev_message (step Call_start w) = true).
Proof.
  cbn. unfold dispatch; cbn. split; [|split].
  - by intros ->.
  - by intros ->.
  - intros Ha [o Eo]. unfold start. rewrite Ha. cbn [negb].
    apply (connect_listening SocketConstructor (set_active true w) ev_message o Eo).
Qed.

End Notifications.

Lemma disconnect_iff_was_connected_witness :
  emitted (run WebSocket [Call_start; Fire 0 OpenEvent; Fire 0 CloseEvent] world0) =
    [Connect; Disconnect] ∧
  occurrences Disconnect
    (emitted (run WebSocket [Call_start; Fire 0 CloseEvent] world0)) = 0.
Proof.
  destruct (disconnect_iff_was_connected WebSocket (run WebSocket [Call_start] world0))
    as (_ & Hoc & Hnone).
  split.
  - apply (Hoc 0); reflexivity.
  - apply (Hnone (Fire 0 CloseEvent)); [right|]; reflexivity.
Defined.

(** C8, as stated, fails: an open event handled while already [connected]
    emits [connect] again. *)
Lemma connect_again_when_connected :
  ¬ (∀ w sid, reachable WebSocket w →
              _state (this w) = connected ∨ _active (this w) = false →
              occurrences Connect (emitted (step WebSocket (Fire sid OpenEvent) w)) =
                occurrences Connect (emitted w)).
Proof.
  intros H.
  specialize (H (run WebSocket [Call_start; Fire 0 OpenEvent] world0) 0
                (reachable_run _) (or_introl eq_refl)).
  vm_compute in H. discriminate.
Qed.

Lemma connect_iff_open_handled_witness :
  _state (this (run WebSocket [Call_start; Fire 0 OpenEvent] world0)) = connected ∧
  emitted (run WebSocket [Call_start; Fire 0 OpenEvent] world0) = [Connect].
Proof.
  destruct (connect_iff_open_handled WebSocket world0) as (_ & _ & H).
  apply H; [reflexivity | by eexists].
Defined.

Lemma message_passthrough_witness :
  let w := run WebSocket [Call_start; Fire 0 OpenEvent] world0 in
  listening 0 ev_message w = true ∧
  emitted (step WebSocket (Fire 0 (MessageEvent "hey there")) w) =
    emitted w ++ [Message "hey there"] ∧
  listening 0 ev_message (step WebSocket Call_start world0) = true.
Proof.
  cbn zeta. split; [reflexivity|]. split.
  - apply (message_passthrough WebSocket 0 "hey there"
             (run WebSocket [Call_start; Fire 0 OpenEvent] world0)).
    reflexivity.
  - apply (message_passthrough WebSocket 0 "hey there" world0);
      [reflexivity | by eexists].
Defined.

(** * Further properties of the methods *)

(** ** What a connect attempt and a teardown do to the sockets *)

Lemma alter_last {A} (f : A → A) (l : list A) (x : A) :
  alter f (length l) (l ++ [x]) = l ++ [f x].
Proof.
  replace (length l) with (length l + 0) by lia. by rewrite alter_app_r.
Qed.

Lemma alter_twice {A} (f g : A → A) (i : nat) (l : list A) :
  alter f i (alter g i l) = alter (f ∘ g) i l.
Proof.
  revert i. induction l as [|x l IH]; intros [|i]; cbn; [done..|].
  f_equal. apply IH.
Qed.

Lemma detach_all (l : list EventName) :
  filter (λ e, e ≠ ev_message)
    (filter (λ e, e ≠ ev_close)
       (filter (λ e, e ≠ ev_error) (filter (λ e, e ≠ ev_open) l))) = [].
Proof.
  apply elem_of_nil_inv. intros x Hx.
  repeat (apply list_elem_of_filter in Hx as [? Hx]).
  by destruct x.
Qed.

Section Sockets.
Variable SocketConstructor : string → option SocketObject.

Lemma connect_heap w :
  heap (_connect SocketConstructor w) =
  match SocketConstructor (_URL (this w)) with
  | Some o => heap w ++ [mkSocket o all_listeners]
  | None => heap w
  end.
Proof.
  unfold _connect, _setup. destruct (SocketConstructor _); cbn; [|done].
  by rewrite !alter_last.
Qed.

Lemma connect_calls w :
  calls (_connect SocketConstructor w) = calls w ++ connect_requests SocketConstructor w.
Proof.
  unfold _connect, _setup, connect_requests.
  destruct (SocketConstructor _); cbn; [|by rewrite app_nil_r].
  by rewrite <- !app_assoc.
Qed.

End Sockets.

Lemma teardown_calls w : calls (_teardown w) = calls w ++ teardown_requests w.
Proof.
  unfold _teardown, teardown_requests.
  destruct (_socket (this w)) as [sid|]; [|by rewrite app_nil_r].
  destruct (heap w !! sid) as [s|]; [|by rewrite app_nil_r].
  destruct (has_removeEventListener _); cbn; [by rewrite <- !app_assoc|].
  destruct (has_removeListener _); cbn; [by rewrite <- !app_assoc|].
  by rewrite app_nil_r.
Qed.

Lemma teardown_heap w :
  heap (_teardown w) =
  match _socket (this w) with
  | None => heap w
  | Some sid =>
      match heap w !! sid with
      | None => heap w
      | Some s =>
          if has_removeEventListener (object s) ||
             has_removeListener (object s) && removeListener_detaches (object s)
          then alter (λ s, mkSocket (object s) []) sid (heap w)
          else heap w
      end
  end.
Proof.
  assert (∀ (sid : nat) (l : list Socket),
    alter (detach ev_message) sid (alter (detach ev_close) sid
      (alter (detach ev_error) sid (alter (detach ev_open) sid l))) =
    alter (λ s, mkSocket (object s) []) sid l) as Hall.
  { intros sid l. rewrite !alter_twice.
    apply list_alter_ext; [|done]. intros s _. unfold detach; cbn.
    by rewrite detach_all. }
  unfold _teardown.
  destruct (_socket (this w)) as [sid|]; [|done].
  destruct (heap w !! sid) as [s|] eqn:El; [|done].
  destruct (has_removeEventListener _); cbn; [apply Hall|].
  destruct (has_removeListener _); cbn; [|done].
  rewrite !alter_twice.
  destruct (removeListener_detaches (object s)) eqn:Er.
  - apply list_alter_ext; [|done]. intros x Ex. rewrite El in Ex. simplify_eq.
    cbn. rewrite Er; cbn. rewrite Er; cbn. rewrite Er; cbn. rewrite Er; cbn.
    unfold detach; cbn. by rewrite detach_all.
  - rewrite <- (list_alter_id (λ s, s) (heap w) sid) at 2 by done.
    apply list_alter_ext; [|done]. intros x Ex. rewrite El in Ex. simplify_eq.
    cbn. rewrite Er; cbn. rewrite Er; cbn. rewrite Er; cbn. by rewrite Er.
Qed.

Lemma handleDisconnect_calls w :
  calls (_handleDisconnect w) = calls w ++ teardown_requests w.
Proof.
  unfold _handleDisconnect.
  set (w1 := _teardown (set_state unconnected w)).
  assert (calls w1 = calls w ++ teardown_requests w) as E
    by (unfold w1; by rewrite teardown_calls).
  assert (∀ b n v, calls (if b : bool then emit n v else v) = calls v) as Hemit
    by (by intros []).
  rewrite Hemit.
  destruct (_active (this w1)); [|done].
  unfold _retryConnection. by case_bool_decide.
Qed.

Lemma handleDisconnect_heap w : heap (_handleDisconnect w) = heap (_teardown w).
Proof.
  unfold _handleDisconnect.
  set (w1 := _teardown (set_state unconnected w)).
  assert (heap w1 = heap (_teardown w)) as E
    by (unfold w1; by rewrite !teardown_heap).
  assert (∀ b n v, heap (if b : bool then emit n v else v) = heap v) as Hemit
    by (by intros []).
  rewrite Hemit.
  destruct (_active (this w1)); [|done].
  unfold _retryConnection. by case_bool_decide.
Qed.

Section Requests.
Variable SocketConstructor : string → option SocketObject.

(** Every event extends the log of socket calls by exactly [requests]. *)
Lemma step_calls e w :
  calls (step SocketConstructor e w) = calls w ++ requests SocketConstructor e w.
Proof.
  destruct e as [| |message|sid ev|h|sid o| |]; cbn.
  - unfold start. destruct (_active (this w)); cbn [negb]; [by rewrite app_nil_r|].
    by rewrite connect_calls.
  - unfold stop. destruct (_active (this w)) eqn:Ea; [|by rewrite app_nil_r].
    by rewrite disconnect_calls.
  - unfold send. case_bool_decide; cbn; [by rewrite app_nil_r|].
    destruct (_socket (this w)) as [sid|]; [|by rewrite app_nil_r].
    unfold socket_send; cbn. destruct (heap w !! sid); [|by rewrite app_nil_r].
    by destruct (send_throws _).
  - unfold dispatch. destruct (listening _ _ _); [|by rewrite app_nil_r].
    destruct ev; cbn; try by rewrite app_nil_r.
    + unfold _handleError. destruct (on_error w); [|by rewrite app_nil_r].
      by rewrite handleDisconnect_calls.
    + by rewrite handleDisconnect_calls.
  - unfold fire. destruct (is_pending h w); [|by rewrite app_nil_r].
    unfold retry_callback. by rewrite connect_calls.
  - by rewrite app_nil_r.
  - by rewrite app_nil_r.
  - by rewrite app_nil_r.
Qed.

Lemma step_URL e w : _URL (this (step SocketConstructor e w)) = _URL (this w).
Proof.
  destruct e as [| |message|sid ev|h|sid o| |]; cbn; try done.
  - unfold start. destruct (_active (this w)); cbn [negb]; [done|].
    by destruct (connect_fields SocketConstructor (set_active true w)) as (-> & _).
  - unfold stop. destruct (_active (this w)); [|done]. by rewrite disconnect_this.
  - by destruct (send_frame message w) as (-> & _).
  - unfold dispatch. destruct (listening _ _ _); [|done].
    destruct ev; cbn; try done; unfold _handleError;
      try (destruct (on_error w); [|done]);
      rewrite handleDisconnect_this; cbn; by destruct (_active (this w)).
  - unfold fire. destruct (is_pending h w); [|done]. unfold retry_callback.
    by destruct (connect_fields SocketConstructor
                   (set_state connecting (set_reconnectTimeout None (clearTimeout h w))))
      as (-> & _).
Qed.

End Requests.

(** ** [start] and [stop] *)

(** X1. [start] is idempotent: a second call changes nothing, whatever the
    world was; in particular it does not replace the socket of an active
    transport. *)
Theorem start_idempotent (SocketConstructor : string → option SocketObject) (w : World) :
  start SocketConstructor (start SocketConstructor w) = start SocketConstructor w.
Proof.
  unfold start at 1.
  assert (_active (this (start SocketConstructor w)) = true) as ->; [|done].
  unfold start. destruct (_active (this w)) eqn:Ea; cbn [negb]; [done|].
  by destruct (connect_fields SocketConstructor (set_active true w)) as (_ & _ & -> & _).
Qed.

(** X2. [stop] is idempotent: a second call closes nothing and clears
    nothing more. *)
Theorem stop_idempotent (w : World) : stop (stop w) = stop w.
Proof.
  unfold stop at 1.
  assert (_active (this (stop w)) = false) as ->; [|done].
  unfold stop. destruct (_active (this w)) eqn:Ea; [|done].
  by rewrite disconnect_this.
Qed.

(** X3. [start] on an inactive transport, when the constructor returns,
    constructs one socket for the stored URL, registers the four listeners on it in the order open,
    error, close, message, references it and marks the transport active.  It
    leaves [_state] as it was (it does not move to [connecting]), and sets
    no timer and emits nothing. *)
Theorem start_constructs_socket
    (SocketConstructor : string → option SocketObject) (w : World)
    (o : SocketObject) :
  _active (this w) = false →
  SocketConstructor (_URL (this w)) = Some o →
  let w' := start SocketConstructor w in
  _socket (this w') = Some (length (heap w)) ∧
  _active (this w') = true ∧
  _state (this w') = _state (this w) ∧
  _reconnectTimeout (this w') = _reconnectTimeout (this w) ∧
  heap w' = heap w ++ [mkSocket o all_listeners] ∧
  calls w' = calls w ++ [New (length (heap w)) (_URL (this w));
                         AddEventListener (length (heap w)) ev_open;
                         AddEventListener (length (heap w)) ev_error;
                         AddEventListener (length (heap w)) ev_close;
                         AddEventListener (length (heap w)) ev_message] ∧
  pending w' = pending w ∧ emitted w' = emitted w.
Proof.
  intros Ha Eo. cbn zeta. unfold start. rewrite Ha. cbn [negb].
  rewrite connect_this, connect_heap, connect_calls, connect_emitted.
  destruct (connect_timers SocketConstructor (set_active true w)) as [-> _].
  unfold connect_requests. cbn [this set_active _URL heap]. by rewrite Eo.
Qed.

Lemma start_constructs_socket_witness :
  _socket (this (start WebSocket world0)) = Some 0 ∧
  _state (this (start WebSocket world0)) = unconnected ∧
  heap (start WebSocket world0) =
    [mkSocket (mkSocketObject 0 true false false false false) all_listeners].
Proof.
  destruct (start_constructs_socket WebSocket world0
              (mkSocketObject 0 true false false false false))
    as (Hs & _ & Hst & _ & Hh & _); [by vm_compute..|].
  split; [exact Hs|]. split; [exact Hst|exact Hh].
Defined.

(** ** [_teardown] *)

(** X4. [_teardown] does nothing when no socket is referenced or when the
    socket has neither removal method.  Otherwise it makes the four removal
    calls on the referenced socket, through [removeEventListener] if the
    socket has it and through [removeListener] if not, and leaves the other
    sockets and the transport's fields alone.  The listeners are then gone
    from the socket, except where [removeListener] is used on a socket
    that does not find the reference: such a socket keeps all four. *)
Theorem teardown_effect (w : World) :
  (_socket (this w) = None → _teardown w = w) ∧
  (∀ sid s,
     _socket (this w) = Some sid → heap w !! sid = Some s →
     if has_removeEventListener (object s) || has_removeListener (object s) then
       heap (_teardown w) !! sid =
         Some (if has_removeEventListener (object s) ||
                  removeListener_detaches (object s)
               then mkSocket (object s) [] else s) ∧
       (∀ j, j ≠ sid → heap (_teardown w) !! j = heap w !! j) ∧
       calls (_teardown w) =
         calls w ++ (if has_removeEventListener (object s)
                     then RemoveEventListener sid <$> all_listeners
                     else RemoveListener sid <$> all_listeners) ∧
       this (_teardown w) = this w
     else _teardown w = w).
Proof.
  split.
  - intros E. unfold _teardown. by rewrite E.
  - intros sid s Es Eh.
    destruct (has_removeEventListener (object s) || has_removeListener (object s))
      eqn:Eapi.
    + pose proof (teardown_heap w) as Hheap. rewrite Es, Eh in Hheap.
      split; [|split; [|split]].
      * rewrite Hheap.
        destruct (has_removeEventListener (object s)) eqn:E1; cbn.
        -- by rewrite list_lookup_alter_eq, Eh.
        -- cbn in Eapi. rewrite Eapi; cbn.
           destruct (removeListener_detaches (object s)); [|done].
           by rewrite list_lookup_alter_eq, Eh.
      * intros j Hj. rewrite Hheap.
        destruct (has_removeEventListener (object s) ||
                  has_removeListener (object s) && removeListener_detaches (object s));
          [|done].
        by rewrite list_lookup_alter_ne.
      * rewrite teardown_calls. unfold teardown_requests. rewrite Es, Eh.
        destruct (has_removeEventListener (object s)); [done|].
        cbn in Eapi. by rewrite Eapi.
      * apply teardown_this.
    + apply orb_false_iff in Eapi as [E1 E2].
      unfold _teardown. by rewrite Es, Eh, E1, E2.
Qed.

Lemma teardown_effect_witness :
  let w := run WebSocket [Call_start; Fire 0 OpenEvent] world0 in
  let v := run WrappingSocket [Call_start; Fire 0 OpenEvent] world0 in
  (heap (_teardown w) !! 0 =
     Some (mkSocket (mkSocketObject 0 true false false false false) []) ∧
   calls (_teardown w) = calls w ++ (RemoveEventListener 0 <$> all_listeners)) ∧
  (heap (_teardown v) !! 0 = heap v !! 0 ∧
   calls (_teardown v) = calls v ++ (RemoveListener 0 <$> all_listeners)).
Proof.
  cbn zeta. split.
  - destruct (teardown_effect (run WebSocket [Call_start; Fire 0 OpenEvent] world0))
      as [_ H].
    specialize (H 0 (mkSocket (mkSocketObject 0 true false false false false)
                              all_listeners)
                  ltac:(by vm_compute) ltac:(by vm_compute)).
    cbn [orb object has_removeEventListener has_removeListener
         removeListener_detaches] in H.
    destruct H as (Hc & _ & Hk & _). split; [exact Hc|exact Hk].
  - destruct (teardown_effect (run WrappingSocket [Call_start; Fire 0 OpenEvent] world0))
      as [_ H].
    specialize (H 0 (mkSocket (mkSocketObject 0 false true false false false)
                              all_listeners)
                  ltac:(by vm_compute) ltac:(by vm_compute)).
    cbn [orb object has_removeEventListener has_removeListener
         removeListener_detaches] in H.
    destruct H as (Hc & _ & Hk & _).
    split; [by rewrite Hc; vm_compute|exact Hk].
Defined.

(** Closes a goal by taking its hypotheses apart and comparing constructors. *)
Ltac settle :=
  intros;
  repeat match goal with
         | H : _ ∧ _ |- _ => destruct H
         | H : ∃ _, _ |- _ => destruct H
         end;
  simplify_eq; eauto 6; congruence.

(** ** [send] in the [connected] state *)

(** X5. How [send] completes.  It returns normally exactly when the state
    is [connected] and the referenced socket's [send] does not throw.  It
    lets a [TypeError] escape exactly when the state is [connected] and no
    socket is referenced.  In the [connected] state it always emits the
    [send] notification first, even if the transmission then fails, and a
    failed transmission is reported as a state error carrying [connected]
    and the socket's [readyState] read after the failure. *)
Theorem send_outcome (message : string) (w : World) :
  (fst (send message w) = Returned ↔
     _state (this w) = connected ∧
     ∃ sid s, _socket (this w) = Some sid ∧ heap w !! sid = Some s ∧
              send_throws (object s) = false) ∧
  (fst (send message w) = Threw TypeError ↔
     _state (this w) = connected ∧ _socket (this w) = None) ∧
  (_state (this w) = connected →
     emitted (snd (send message w)) = emitted w ++ [SendNote message]) ∧
  (∀ sid s,
     _state (this w) = connected → _socket (this w) = Some sid →
     heap w !! sid = Some s →
     calls (snd (send message w)) = calls w ++ [Send sid message] ∧
     (send_throws (object s) = true →
      fst (send message w) =
        Threw (SocketTransportStateError connected (Some (readyState (object s)))))).
Proof.
  unfold send, socket_send, current_readyState.
  destruct (decide (_state (this w) = connected)) as [Ec|Ec].
  - rewrite (bool_decide_eq_false_2 _ (λ H, H Ec)); cbn.
    destruct (_socket (this w)) as [sid|] eqn:Es; cbn.
    + destruct (heap w !! sid) as [s|] eqn:Eh; cbn.
      * destruct (send_throws (object s)) eqn:Et; cbn; rewrite ?Es, ?Eh, ?Ec; cbn;
          repeat split; try done; settle.
      * rewrite ?Es, ?Eh; cbn. repeat split; try done; settle.
    + repeat split; try done; settle.
  - rewrite (bool_decide_eq_true_2 _ Ec); cbn.
    repeat split; try done; settle.
Qed.

Lemma send_outcome_witness :
  fst (send "hey there" (run WebSocket [Call_start; Fire 0 OpenEvent] world0)) = Returned ∧
  fst (send "hey there" (run WebSocket [Call_start; Fire 0 OpenEvent; Call_stop] world0)) =
    Threw TypeError.
Proof.
  split.
  - apply (send_outcome "hey there" (run WebSocket [Call_start; Fire 0 OpenEvent] world0)).
    split; [by vm_compute|].
    exists 0, (mkSocket (mkSocketObject 0 true false false false false) all_listeners). by vm_compute.
  - apply (send_outcome "hey there"
             (run WebSocket [Call_start; Fire 0 OpenEvent; Call_stop] world0)).
    by vm_compute.
Defined.

(** ** Timers *)

Lemma handleDisconnect_next_handle w :
  next_handle (_handleDisconnect w) =
  if _active (this w) then Pos.succ (next_handle w) else next_handle w.
Proof.
  unfold _handleDisconnect.
  set (w1 := _teardown (set_state unconnected w)).
  assert (this w1 = this (set_state unconnected w)) as E by apply teardown_this.
  destruct (teardown_timers (set_state unconnected w)) as [_ En]. fold w1 in En.
  assert (∀ b n v, next_handle (if b : bool then emit n v else v) = next_handle v)
    as Hemit by (by intros []).
  rewrite Hemit, E; cbn.
  destruct (_active (this w)) eqn:Ea; [|by rewrite En].
  unfold _retryConnection. rewrite E; cbn.
  rewrite bool_decide_eq_true_2 by done; cbn. by rewrite En.
Qed.

Lemma disconnect_next_handle w : next_handle (_disconnect w) = next_handle w.
Proof.
  unfold _disconnect, socket_close.
  destruct (_reconnectTimeout (this w)); cbn;
    (destruct (_socket (this w)) as [sid|]; cbn; [destruct (heap w !! sid)|]); done.
Qed.

Lemma send_next_handle message w :
  next_handle (snd (send message w)) = next_handle w.
Proof.
  unfold send. case_bool_decide; [done|].
  cbn. destruct (_socket (this w)); [|done].
  unfold socket_send; cbn.
  destruct (heap w !! n); [|done].
  by destruct (send_throws _).
Qed.

Section Timers.
Variable SocketConstructor : string → option SocketObject.

Lemma step_timer_change e w :
  if handles_disconnect e w && _active (this w)
  then pending (step SocketConstructor e w) =
         pending w ++ [mkTimer (next_handle w) 2000] ∧
       next_handle (step SocketConstructor e w) = Pos.succ (next_handle w)
  else (∃ h, pending (step SocketConstructor e w) =
               filter (λ t, handle t ≠ h) (pending w)) ∧
       next_handle (step SocketConstructor e w) = next_handle w
       ∨ pending (step SocketConstructor e w) = pending w ∧
         next_handle (step SocketConstructor e w) = next_handle w.
Proof.
  destruct e as [| |message|sid ev|h|sid o| |]; cbn.
  - right. unfold start. destruct (_active (this w)); cbn [negb]; [done|].
    by destruct (connect_timers SocketConstructor (set_active true w)) as [-> ->].
  - unfold stop. destruct (_active (this w)); [|by right].
    rewrite disconnect_pending, disconnect_next_handle; cbn.
    destruct (_reconnectTimeout (this w)) as [h|]; [left|right]; eauto.
  - right. destruct (send_frame message w) as (_ & _ & ->).
    by rewrite send_next_handle.
  - unfold dispatch. destruct ev; cbn; destruct (listening _ _ _); cbn;
      try (by right).
    + unfold _handleError. destruct (on_error w); cbn; [|by right].
      rewrite handleDisconnect_pending, handleDisconnect_next_handle; cbn.
      destruct (_active (this w)); [done|by right].
    + rewrite handleDisconnect_pending, handleDisconnect_next_handle.
      destruct (_active (this w)); [done|by right].
  - unfold fire. destruct (is_pending h w); [left|by right].
    unfold retry_callback.
    destruct (connect_timers SocketConstructor
                (set_state connecting (set_reconnectTimeout None (clearTimeout h w))))
      as [-> ->].
    split; [by exists h|done].
  - by right.
  - by right.
  - by right.
Qed.

End Timers.

Lemma NoDup_handles_filter (P : Timer → Prop) `{!∀ t, Decision (P t)} (l : list Timer) :
  NoDup (handle <$> l) → NoDup (handle <$> filter P l).
Proof.
  induction l as [|t l IH]; [done|].
  rewrite fmap_cons, NoDup_cons. intros [Hnin Hnd].
  rewrite filter_cons. destruct (decide (P t)); [|by apply IH].
  rewrite fmap_cons, NoDup_cons. split; [|by apply IH].
  intros (t' & E & Hin)%list_elem_of_fmap.
  apply list_elem_of_filter in Hin as [_ Hin].
  apply Hnin. apply list_elem_of_fmap. by exists t'.
Qed.

Lemma filter_handle_absent (h : positive) (l : list Timer) :
  h ∉ handle <$> l → filter (λ t, handle t ≠ h) l = l.
Proof.
  induction l as [|t l IH]; [done|].
  rewrite fmap_cons, not_elem_of_cons. intros [Hne Hnin].
  rewrite filter_cons, decide_True by done. by rewrite IH.
Qed.

Lemma filter_handle_present (h : positive) (l : list Timer) :
  NoDup (handle <$> l) → h ∈ handle <$> l →
  S (length (filter (λ t, handle t ≠ h) l)) = length l.
Proof.
  induction l as [|t l IH]; [by intros _ ?%elem_of_nil|].
  rewrite fmap_cons, NoDup_cons. intros [Hnin Hnd] Hin.
  rewrite filter_cons. destruct (decide (handle t ≠ h)) as [Hne|Heq].
  - cbn. f_equal. apply IH; [done|].
    apply elem_of_cons in Hin as [?|?]; [congruence|done].
  - apply dec_stable in Heq. subst h.
    by rewrite filter_handle_absent.
Qed.

Section TimerInvariant.
Variable SocketConstructor : string → option SocketObject.

Lemma timers_fresh_step e w :
  timers_fresh w → timers_fresh (step SocketConstructor e w).
Proof.
  intros [Hnd Hlt]. pose proof (step_timer_change SocketConstructor e w) as H.
  unfold timers_fresh.
  destruct (handles_disconnect e w && _active (this w)).
  - destruct H as [-> ->]. split.
    + rewrite fmap_app. apply NoDup_app. split; [done|]. split; [|apply NoDup_singleton].
      intros h Hin ->%list_elem_of_singleton. specialize (Hlt _ Hin).
      cbn in Hlt. lia.
    + intros h. rewrite fmap_app, elem_of_app. intros [Hin|Hin].
      * specialize (Hlt _ Hin). lia.
      * apply list_elem_of_singleton in Hin as ->. cbn. lia.
  - destruct H as [[[h ->] ->]|[-> ->]]; [|done]. split.
    + by apply NoDup_handles_filter.
    + intros h' (t & -> & Hin)%list_elem_of_fmap.
      apply list_elem_of_filter in Hin as [_ Hin].
      apply Hlt, list_elem_of_fmap. by exists t.
Qed.

Lemma timers_fresh_run evs w :
  timers_fresh w → timers_fresh (run SocketConstructor evs w).
Proof.
  revert w. induction evs as [|e evs IH]; intros w Hf; [done|].
  cbn. apply IH. by apply timers_fresh_step.
Qed.

Lemma reachable_timers_fresh w :
  reachable SocketConstructor w → timers_fresh w.
Proof.
  intros (URL & t & evs & _ & ->). apply timers_fresh_run.
  split; [apply NoDup_nil_2|]. by intros h ?%elem_of_nil.
Qed.

(** X6. When an event sets a timer.  An event that makes
    [_handleDisconnect] run while the transport is active (a close event
    that finds the listener, or an error event that finds the listener and
    an ['error'] subscriber) sets exactly one new timer of 2000 ms and
    stores its handle, whatever [_state] was.  No other event sets one, an
    error event without subscriber included: every timer pending afterwards
    was pending before. *)
Theorem timer_set_iff_failure_while_active (e : Event) (w : World) :
  let w' := step SocketConstructor e w in
  if handles_disconnect e w && _active (this w)
  then pending w' = pending w ++ [mkTimer (next_handle w) 2000] ∧
       _reconnectTimeout (this w') = Some (next_handle w)
  else ∀ t, t ∈ pending w' → t ∈ pending w.
Proof.
  cbn zeta. pose proof (step_timer_change SocketConstructor e w) as H.
  destruct (handles_disconnect e w && _active (this w)) eqn:Hb.
  - destruct H as [-> _]. split; [done|].
    apply andb_true_iff in Hb as [Hh Ha].
    destruct e as [| | |sid [| | |]| | | |]; try done; cbn in Hh |- *.
    + apply andb_true_iff in Hh as [Hl Hon].
      unfold dispatch; cbn. rewrite Hl. unfold _handleError. rewrite Hon.
      rewrite handleDisconnect_this; cbn. by rewrite Ha.
    + unfold dispatch; cbn. rewrite Hh.
      rewrite handleDisconnect_this; cbn. by rewrite Ha.
  - destruct H as [[[h ->] _]|[-> _]]; [|done].
    intros t Hin. by apply list_elem_of_filter in Hin as [_ ?].
Qed.

(** X7. In every reachable world the pending timers have pairwise distinct
    handles.  So [stop] on an active transport with a handle stored cancels
    exactly one timer, the one stored, and every other pending timer stays
    pending. *)
Theorem stop_cancels_one_timer (w : World) (h : positive) :
  reachable SocketConstructor w →
  _active (this w) = true →
  _reconnectTimeout (this w) = Some h →
  NoDup (handle <$> pending w) ∧
  S (length (pending (stop w))) = length (pending w) ∧
  (∀ t, t ∈ pending w → handle t ≠ h → t ∈ pending (stop w)).
Proof.
  intros Hr Ha Eh. destruct (reachable_timers_fresh w Hr) as [Hnd _].
  destruct (reachable_coherent _ _ Hr) as [_ Hlive].
  destruct (Hlive h Eh) as (_ & _ & Hp).
  unfold is_pending in Hp. apply bool_decide_eq_true in Hp.
  unfold stop. rewrite Ha, disconnect_pending; cbn. rewrite Eh.
  split; [done|]. split; [by apply filter_handle_present|].
  intros t Hin Hne. by apply list_elem_of_filter.
Qed.

End TimerInvariant.

Lemma stop_cancels_one_timer_witness :
  let w := run WebSocket [Call_start; Call_stop; Call_start;
                          Fire 0 (ErrorEvent "closed before open");
                          Fire 0 CloseEvent] world0 in
  length (pending w) = 2 ∧ S (length (pending (stop w))) = length (pending w).
Proof.
  cbn zeta. split; [by vm_compute|].
  apply (stop_cancels_one_timer WebSocket _ 2%positive);
    [apply reachable_run | by vm_compute | by vm_compute].
Defined.

(** Takes apart the tests a list of requests depends on. *)
Ltac split_requests :=
  repeat match goal with
         | |- context [if ?b then _ else _] => destruct b
         | |- context [match ?o with Some _ => _ | None => _ end] => destruct o
         end.

(** ** The calls made on sockets *)

Lemma teardown_requests_kinds w :
  List.filter is_new (teardown_requests w) = [] ∧
  List.filter is_close (teardown_requests w) = [] ∧
  List.filter is_socket_send (teardown_requests w) = [].
Proof.
  unfold teardown_requests.
  destruct (_socket (this w)) as [sid|]; [|done].
  destruct (heap w !! sid) as [s|]; [|done].
  destruct (has_removeEventListener _); [done|].
  by destruct (has_removeListener _).
Qed.

Lemma count_calls_app p w w' k :
  calls w' = calls w ++ k →
  count_calls p w' = count_calls p w + length (List.filter p k).
Proof. intros E. unfold count_calls. by rewrite E, List.filter_app, length_app. Qed.

Section Calls.
Variable SocketConstructor : string → option SocketObject.

#[local] Abbreviation step := (step SocketConstructor).




(** X9. Who calls what.  Only [stop] calls [close], only [send] calls the
    socket's [send], and listeners are removed only while a socket event is
    being handled.  In particular the socket abandoned after a failure is
    never closed by the handler. *)
Theorem calls_by_method (e : Event) (w : World) :
  (e ≠ Call_stop → count_calls is_close (step e w) = count_calls is_close w) ∧
  ((∀ message, e ≠ Call_send message) →
     count_calls is_socket_send (step e w) = count_calls is_socket_send w) ∧
  ((∀ sid ev, e ≠ Fire sid ev) →
     ∀ sid, count_calls (is_remove sid) (step e w) = count_calls (is_remove sid) w).
Proof.
  pose proof (teardown_requests_kinds w) as (_ & Hc & Hs).
  split; [|split].
  - intros Hne. rewrite (count_calls_app _ w _ _ (step_calls SocketConstructor e w)).
    destruct e as [| |message|sid ev|h|sid o| |]; [|done|..]; cbn;
      try destruct ev; unfold connect_requests;
      split_requests; cbn; rewrite ?Hc; cbn; lia.
  - intros Hne. rewrite (count_calls_app _ w _ _ (step_calls SocketConstructor e w)).
    destruct e as [| |message|sid ev|h|sid o| |]; [| |by destruct (Hne message)|..]; cbn;
      try destruct ev; unfold connect_requests;
      split_requests; cbn; rewrite ?Hs; cbn; lia.
  - intros Hne sid'.
    rewrite (count_calls_app _ w _ _ (step_calls SocketConstructor e w)).
    destruct e as [| |message|sid ev|h|sid o| |]; [| | |by destruct (Hne sid ev)|..]; cbn;
      unfold connect_requests; split_requests; cbn; lia.
Qed.

End Calls.


Lemma calls_by_method_witness :
  let w := run WebSocket [Call_start; Fire 0 OpenEvent] world0 in
  count_calls is_close (step WebSocket (Fire 0 CloseEvent) w) = count_calls is_close w.
Proof.
  cbn zeta.
  destruct (calls_by_method WebSocket (Fire 0 CloseEvent)
              (run WebSocket [Call_start; Fire 0 OpenEvent] world0)) as (H & _).
  apply H. discriminate.
Defined.

(** ** Listeners *)

Section Listeners.
Variable SocketConstructor : string → option SocketObject.

#[local] Abbreviation step := (step SocketConstructor).

Lemma all_or_none_step e w :
  Forall (λ s, attached s = [] ∨ attached s = all_listeners) (heap w) →
  Forall (λ s, attached s = [] ∨ attached s = all_listeners) (heap (step e w)).
Proof.
  intros Hall.
  assert (∀ v, heap v = heap w →
    Forall (λ s, attached s = [] ∨ attached s = all_listeners) (heap (_teardown v)))
    as Htear.
  { intros v Ev. rewrite teardown_heap, Ev.
    destruct (_socket (this v)) as [sid|]; [|done].
    destruct (heap w !! sid) as [s|]; [|done].
    destruct (_ || _); [|done].
    apply Forall_alter; [done|]. intros; by left. }
  assert (∀ v, heap v = heap w →
    Forall (λ s, attached s = [] ∨ attached s = all_listeners)
           (heap (_connect SocketConstructor v))) as Hconn.
  { intros v Ev. rewrite connect_heap, Ev. destruct (SocketConstructor _); [|done].
    apply Forall_app. split; [done|]. apply Forall_singleton. by right. }
  destruct e as [| |message|sid ev|h|sid o| |]; cbn.
  - unfold start. destruct (_active (this w)); [done|]. by apply Hconn.
  - by rewrite stop_heap.
  - by destruct (send_frame message w) as (_ & -> & _).
  - unfold dispatch. destruct (listening _ _ _); [|done].
    destruct ev; cbn; try done; unfold _handleError;
      try (destruct (on_error w); [|done]);
      rewrite handleDisconnect_heap; by apply Htear.
  - unfold fire. destruct (is_pending h w); [|done]. by apply Hconn.
  - apply Forall_alter; [done|]. by intros s _ ?.
  - done.
  - done.
Qed.

(** X10. Listeners are registered all or none.  In every reachable world
    each socket either carries the four listeners in registration order or
    carries none, so a socket delivers one kind of event to the transport
    exactly when it delivers every other kind. *)
Theorem listeners_all_or_none (w : World) :
  reachable SocketConstructor w →
  (∀ sid s, heap w !! sid = Some s →
            attached s = [] ∨ attached s = all_listeners) ∧
  (∀ sid ev ev', listening sid ev w = listening sid ev' w).
Proof.
  intros (URL & t & evs & _ & ->).
  assert (Forall (λ s, attached s = [] ∨ attached s = all_listeners)
                 (heap (run SocketConstructor evs (initial t)))) as Hall.
  { assert (Forall (λ s, attached s = [] ∨ attached s = all_listeners)
                   (heap (initial t))) as H0 by apply Forall_nil_2.
    revert H0. generalize (initial t).
    induction evs as [|e evs IH]; intros w H0; [done|].
    cbn. apply IH. by apply all_or_none_step. }
  rewrite Forall_lookup in Hall. split; [done|].
  intros sid ev ev'. unfold listening.
  destruct (heap _ !! sid) as [s|] eqn:Es; [|done].
  destruct (Hall sid s Es) as [-> | ->]; by destruct ev, ev'.
Qed.

End Listeners.

Lemma listeners_all_or_none_witness :
  let w := run BareSocket [Call_start; Fire 0 CloseEvent; Timeout 1] world0 in
  listening 0 ev_open w = listening 0 ev_message w ∧
  listening 1 ev_error w = listening 1 ev_close w.
Proof.
  cbn zeta.
  destruct (listeners_all_or_none BareSocket
              (run BareSocket [Call_start; Fire 0 CloseEvent; Timeout 1] world0)
              (reachable_run_bare _)) as [_ H].
  split; apply H.
Defined.

(** ** How the methods compose *)

Section Composition.
Variable SocketConstructor : string → option SocketObject.

(** X11. The user's intent changes only through the user's calls: after
    [start] the transport is active, after [stop] it is inactive, and no
    socket event, timer or [send] changes [_active]. *)
Theorem active_follows_calls (e : Event) (w : World) :
  _active (this (step SocketConstructor e w)) =
  match e with
  | Call_start => true
  | Call_stop => false
  | _ => _active (this w)
  end.
Proof.
  destruct e as [| |message|sid ev|h|sid o| |]; cbn; try done.
  - unfold start. destruct (_active (this w)) eqn:Ea; cbn [negb]; [done|].
    by destruct (connect_fields SocketConstructor (set_active true w))
      as (_ & _ & -> & _).
  - unfold stop. destruct (_active (this w)) eqn:Ea; [|done].
    by rewrite disconnect_this.
  - by destruct (send_frame message w) as (-> & _).
  - unfold dispatch. destruct (listening _ _ _); [|done].
    destruct ev; cbn; try done; unfold _handleError;
      try (destruct (on_error w); [|done]);
      rewrite handleDisconnect_this; cbn; by destruct (_active (this w)).
  - unfold fire. destruct (is_pending h w); [|done]. unfold retry_callback.
    by destruct (connect_fields SocketConstructor
                   (set_state connecting (set_reconnectTimeout None (clearTimeout h w))))
      as (_ & _ & -> & _).
Qed.

(** X12. [stop] on a connected transport is completed by the socket's own
    close event: the listeners [stop] left on the socket handle it, the
    state becomes [unconnected], exactly one [disconnect] is emitted and no
    retry is scheduled.  The listeners stay on the socket, since no socket
    is referenced any more when [_teardown] runs. *)
Theorem close_event_after_stop (sid : nat) (w : World) :
  _active (this w) = true →
  _state (this w) = connected →
  listening sid ev_close w = true →
  let w' := step SocketConstructor (Fire sid CloseEvent) (step SocketConstructor Call_stop w) in
  _state (this w') = unconnected ∧
  _active (this w') = false ∧
  _socket (this w') = None ∧
  _reconnectTimeout (this w') = None ∧
  emitted w' = emitted w ++ [Disconnect] ∧
  pending w' = pending (stop w) ∧
  heap w' = heap w.
Proof.
  intros Ha Est Hl. cbn zeta. cbn [step].
  assert (this (stop w) =
          mkSocketTransport (_URL (this w)) None connected false None) as Et.
  { unfold stop. rewrite Ha, disconnect_this; cbn. by rewrite Est. }
  assert (listening sid ev_close (stop w) = true) as Hl'
    by (unfold listening; by rewrite stop_heap).
  unfold dispatch; cbn. rewrite Hl'.
  rewrite handleDisconnect_this, handleDisconnect_emitted, handleDisconnect_pending,
    handleDisconnect_heap, teardown_heap, Et; cbn.
  rewrite stop_heap. repeat split.
  unfold stop. by rewrite Ha, disconnect_emitted.
Qed.

Lemma timeout_pending h w :
  is_pending h w = true →
  is_Some (SocketConstructor (_URL (this w))) →
  this (step SocketConstructor (Timeout h) w) =
    mkSocketTransport (_URL (this w)) (Some (length (heap w))) connecting
                      (_active (this w)) None ∧
  emitted (step SocketConstructor (Timeout h) w) = emitted w ∧
  listening (length (heap w)) ev_open (step SocketConstructor (Timeout h) w) = true.
Proof.
  intros Hp [o Eo]. cbn [step]. unfold fire. rewrite Hp. unfold retry_callback.
  split; [|split; [by rewrite connect_emitted|]].
  - rewrite connect_this. cbn [this set_state set_reconnectTimeout clearTimeout _URL].
    by rewrite Eo.
  - apply (connect_listening SocketConstructor
             (set_state connecting (set_reconnectTimeout None (clearTimeout h w)))
             ev_open o Eo).
Qed.

Lemma close_while_active sid w :
  _active (this w) = true →
  listening sid ev_close w = true →
  this (step SocketConstructor (Fire sid CloseEvent) w) =
    mkSocketTransport (_URL (this w)) (_socket (this w)) retrying true
                      (Some (next_handle w)) ∧
  is_pending (next_handle w) (step SocketConstructor (Fire sid CloseEvent) w) = true ∧
  length (heap (step SocketConstructor (Fire sid CloseEvent) w)) = length (heap w) ∧
  emitted (step SocketConstructor (Fire sid CloseEvent) w) =
    emitted w ++ (if bool_decide (_state (this w) = connected) then [Disconnect] else []).
Proof.
  intros Ha Hl. cbn [step]. unfold dispatch. cbn [event_type listener]. rewrite Hl.
  split; [by rewrite handleDisconnect_this, Ha|].
  split; [|split; [apply handleDisconnect_heap_length|apply handleDisconnect_emitted]].
  eapply is_pending_app; [by rewrite handleDisconnect_pending, Ha|done].
Qed.

(** X13. One reconnection cycle.  On an active transport a handled close
    event moves to [retrying] and sets a timer; when that timer fires the
    handle is cleared, the state is [connecting] and, the constructor
    returning, a new socket is referenced; an open event on the new socket
    gives [connected].  The
    trace grows by [disconnect] (if the transport was connected) and then
    [connect]. *)
Theorem reconnect_cycle (sid : nat) (w : World) :
  _active (this w) = true →
  listening sid ev_close w = true →
  is_Some (SocketConstructor (_URL (this w))) →
  let w1 := step SocketConstructor (Fire sid CloseEvent) w in
  let w2 := step SocketConstructor (Timeout (next_handle w)) w1 in
  let w3 := step SocketConstructor (Fire (length (heap w)) OpenEvent) w2 in
  (_state (this w1) = retrying ∧
   _reconnectTimeout (this w1) = Some (next_handle w) ∧
   is_pending (next_handle w) w1 = true) ∧
  (_state (this w2) = connecting ∧
   _reconnectTimeout (this w2) = None ∧
   _socket (this w2) = Some (length (heap w))) ∧
  (_state (this w3) = connected ∧
   _active (this w3) = true ∧
   _socket (this w3) = Some (length (heap w)) ∧
   emitted w3 =
     emitted w ++ (if bool_decide (_state (this w) = connected)
                   then [Disconnect] else []) ++ [Connect]).
Proof.
  intros Ha Hl Hc. cbn zeta.
  destruct (close_while_active sid w Ha Hl) as (Et1 & Hp1 & El1 & Ee1).
  revert Et1 Hp1 El1 Ee1.
  generalize (step SocketConstructor (Fire sid CloseEvent) w). intros w1 Et1 Hp1 El1 Ee1.
  split; [by rewrite Et1|].
  assert (is_Some (SocketConstructor (_URL (this w1)))) as Hc1 by (by rewrite Et1).
  destruct (timeout_pending (next_handle w) w1 Hp1 Hc1) as (Et2 & Ee2 & Hl2).
  rewrite El1 in Et2, Hl2. rewrite Et1 in Et2. cbn [_URL _active] in Et2.
  revert Et2 Ee2 Hl2.
  generalize (step SocketConstructor (Timeout (next_handle w)) w1). intros w2 Et2 Ee2 Hl2.
  split; [by rewrite Et2|].
  destruct (handled_open_connects (length (heap w)) w2 Hl2) as (Est & Eem & _).
  cbn [step]. rewrite Eem, Ee2, Ee1, <- app_assoc.
  split; [done|]. split; [|split; [|done]].
  - unfold dispatch. cbn [event_type listener]. rewrite Hl2. cbn. by rewrite Et2.
  - unfold dispatch. cbn [event_type listener]. rewrite Hl2. cbn. by rewrite Et2.
Qed.

(** X14. The timer callback does not consult [_active].  A pending timer
    that fires is removed, clears the handle and moves to [connecting], on
    an inactive transport as well.  If the constructor returns, the new
    socket is referenced and carries all four listeners; if it throws, the
    reference and the sockets stay as they were.  A timer that is not
    pending does nothing. *)
Theorem timer_callback_connects (h : positive) (w : World) :
  let w' := step SocketConstructor (Timeout h) w in
  (is_pending h w = true →
     _state (this w') = connecting ∧
     _reconnectTimeout (this w') = None ∧
     _active (this w') = _active (this w) ∧
     pending w' = filter (λ t, handle t ≠ h) (pending w) ∧
     match SocketConstructor (_URL (this w)) with
     | Some o =>
         _socket (this w') = Some (length (heap w)) ∧
         heap w' = heap w ++ [mkSocket o all_listeners]
     | None =>
         _socket (this w') = _socket (this w) ∧ heap w' = heap w ∧
         escaped w' = ConstructorError :: escaped w
     end) ∧
  (is_pending h w = false → w' = w).
Proof.
  cbn. unfold fire. split; intros ->; [|done].
  unfold retry_callback.
  set (v := set_state connecting (set_reconnectTimeout None (clearTimeout h w))).
  destruct (connect_fields SocketConstructor v) as (_ & -> & -> & ->).
  destruct (connect_timers SocketConstructor v) as [-> _].
  rewrite connect_this, connect_heap. unfold _connect.
  cbn [this v set_state set_reconnectTimeout clearTimeout _URL heap].
  by destruct (SocketConstructor _).
Qed.

(** X15. An error event that finds the listener.  If somebody subscribes
    to ['error'], it is handled like a close event, after an [error]
    notification that carries the error as it came: the transport's fields,
    the sockets, the timers and the calls made are the same, and the trace
    has the [error] notification in front of what the close event adds.  If
    nobody subscribes, [emit] throws: nothing is emitted, no listener is
    removed, no timer is set and the fields stay as they were. *)
Theorem error_handled_like_close (sid : nat) (error : string) (w : World) :
  listening sid ev_error w = true →
  let we := step SocketConstructor (Fire sid (ErrorEvent error)) w in
  let wc := _handleDisconnect w in
  (on_error w = true →
     this we = this wc ∧ heap we = heap wc ∧ pending we = pending wc ∧
     calls we = calls wc ∧
     emitted we =
       emitted w ++ Error error ::
         (if bool_decide (_state (this w) = connected) then [Disconnect] else []) ∧
     emitted wc =
       emitted w ++
         (if bool_decide (_state (this w) = connected) then [Disconnect] else [])) ∧
  (on_error w = false →
     this we = this w ∧ heap we = heap w ∧ pending we = pending w ∧
     calls we = calls w ∧ emitted we = emitted w ∧
     escaped we = UnhandledError error :: escaped w).
Proof.
  intros Hl. cbn. unfold dispatch; cbn. rewrite Hl. unfold _handleError.
  split; intros ->; [|done].
  rewrite !handleDisconnect_this, !handleDisconnect_heap, !teardown_heap,
    !handleDisconnect_pending, !handleDisconnect_calls, !handleDisconnect_emitted; cbn.
  repeat split. by rewrite <- app_assoc.
Qed.

(** X16. [stop] followed by a [start] whose constructor call returns
    references a socket constructed by that [start], different from the one referenced before; the earlier socket
    stays in place with whatever listeners it had. *)
Theorem stop_start_fresh_socket (old : nat) (w : World) :
  reachable SocketConstructor w →
  _active (this w) = true →
  _socket (this w) = Some old →
  is_Some (SocketConstructor (_URL (this w))) →
  let w' := step SocketConstructor Call_start (step SocketConstructor Call_stop w) in
  _socket (this w') = Some (length (heap w)) ∧
  old ≠ length (heap w) ∧
  heap w' !! old = heap w !! old ∧
  (∀ ev, listening (length (heap w)) ev w' = true) ∧
  _active (this w') = true ∧
  _state (this w') = _state (this w).
Proof.
  intros Hr Ha Es [o Eo]. cbn zeta. cbn [step].
  destruct (reachable_coherent _ _ Hr) as [Hval _].
  specialize (Hval old Es).
  assert (this (stop w) =
          mkSocketTransport (_URL (this w)) None (_state (this w)) false None) as Et.
  { unfold stop. by rewrite Ha, disconnect_this. }
  assert (heap (stop w) = heap w) as Eh by apply stop_heap.
  unfold start. rewrite Et; cbn [_active negb].
  pose proof (connect_this SocketConstructor (set_active true (stop w))) as Ec.
  pose proof (connect_heap SocketConstructor (set_active true (stop w))) as Ech.
  pose proof (λ ev, connect_listening SocketConstructor (set_active true (stop w)) ev o)
    as Hl.
  cbn [heap this set_active _URL _state _active _socket _reconnectTimeout] in Ec, Ech, Hl.
  rewrite Eh in Ec, Ech, Hl. rewrite Et in Ec, Ech, Hl.
  cbn [_state _URL] in Ec, Ech, Hl. rewrite Eo in Ec, Ech.
  specialize (λ ev, Hl ev Eo).
  revert Ec Ech Hl. generalize (_connect SocketConstructor (set_active true (stop w))).
  intros c Ec Ech Hl. rewrite Ec, Ech; cbn [_socket _active _state].
  split; [done|]. split; [lia|]. split; [by rewrite lookup_app_l|].
  split; [apply Hl|done].
Qed.

End Composition.

Lemma close_event_after_stop_witness :
  let w := run WebSocket [Call_start; Fire 0 OpenEvent] world0 in
  _state (this (run WebSocket [Call_stop; Fire 0 CloseEvent] w)) = unconnected ∧
  emitted (run WebSocket [Call_stop; Fire 0 CloseEvent] w) = emitted w ++ [Disconnect].
Proof.
  cbn zeta.
  destruct (close_event_after_stop WebSocket 0
              (run WebSocket [Call_start; Fire 0 OpenEvent] world0))
    as (Hs & _ & _ & _ & He & _); [by vm_compute..|].
  split; [exact Hs|exact He].
Defined.

Lemma reconnect_cycle_witness :
  let w := run WebSocket [Call_start; Fire 0 OpenEvent] world0 in
  _state (this (run WebSocket [Fire 0 CloseEvent; Timeout 1; Fire 1 OpenEvent] w)) =
    connected ∧
  _socket (this (run WebSocket [Fire 0 CloseEvent; Timeout 1; Fire 1 OpenEvent] w)) =
    Some 1.
Proof.
  cbn zeta.
  destruct (reconnect_cycle WebSocket 0
              (run WebSocket [Call_start; Fire 0 OpenEvent] world0))
    as (_ & _ & Hs & _ & Hk & _); [by vm_compute | by vm_compute | by eexists |].
  split; [exact Hs|exact Hk].
Defined.

Lemma timer_callback_connects_witness :
  let w := run WebSocket [Call_start; Call_stop; Call_start;
                          Fire 0 (ErrorEvent "closed before open");
                          Fire 0 CloseEvent; Call_stop] world0 in
  _active (this w) = false ∧
  _state (this (step WebSocket (Timeout 1) w)) = connecting ∧
  _socket (this (step WebSocket (Timeout 1) w)) = Some 2 ∧
  step WebSocket (Timeout 2) w = w.
Proof.
  cbn zeta. split; [by vm_compute|].
  destruct (timer_callback_connects WebSocket 1
              (run WebSocket [Call_start; Call_stop; Call_start;
                              Fire 0 (ErrorEvent "closed before open");
                              Fire 0 CloseEvent; Call_stop] world0)) as [H _].
  destruct (H ltac:(by vm_compute)) as (Hs & _ & _ & _ & Hk).
  cbn [WebSocket] in Hk. destruct Hk as [Hk _].
  split; [exact Hs|]. split; [exact Hk|].
  destruct (timer_callback_connects WebSocket 2
              (run WebSocket [Call_start; Call_stop; Call_start;
                              Fire 0 (ErrorEvent "closed before open");
                              Fire 0 CloseEvent; Call_stop] world0)) as [_ H2].
  apply H2. by vm_compute.
Defined.

Lemma error_handled_like_close_witness :
  let w := run BareSocket [Call_start; Fire 0 OpenEvent] world0 in
  this (step BareSocket (Fire 0 (ErrorEvent "ECONNRESET")) w) =
    this (_handleDisconnect w) ∧
  emitted (step BareSocket (Fire 0 (ErrorEvent "ECONNRESET")) w) =
    emitted w ++ [Error "ECONNRESET"; Disconnect].
Proof.
  cbn zeta.
  destruct (error_handled_like_close BareSocket 0 "ECONNRESET"
              (run BareSocket [Call_start; Fire 0 OpenEvent] world0))
    as [H _]; [by vm_compute|].
  destruct (H ltac:(by vm_compute)) as (Ht & _ & _ & _ & He & _).
  split; [exact Ht|exact He].
Defined.

Lemma stop_start_fresh_socket_witness :
  let w := run WebSocket [Call_start; Fire 0 OpenEvent] world0 in
  _socket (this (run WebSocket [Call_stop; Call_start] w)) = Some 1 ∧
  heap (run WebSocket [Call_stop; Call_start] w) !! 0 = heap w !! 0.
Proof.
  cbn zeta.
  destruct (stop_start_fresh_socket WebSocket 0
              (run WebSocket [Call_start; Fire 0 OpenEvent] world0))
    as (Hs & _ & Hh & _);
    [apply reachable_run | by vm_compute | by vm_compute | by eexists |].
  split; [exact Hs|exact Hh].
Defined.

(** ** Sequences of [start] and [stop] alone *)

Section UserCalls.
Variable SocketConstructor : string → option SocketObject.

(** X17. Whatever sequence of [start] and [stop] calls is made on a new
    transport, with no socket event or timer in between: [_state] is still
    [unconnected], no timer is set and nothing has been emitted.  If the
    constructor returns for the URL, a socket is referenced exactly while
    the transport is active; if it throws, no socket is ever referenced,
    active or not. *)
Theorem start_stop_only
    (URL : string) (t : SocketTransport) (evs : list Event) :
  new_SocketTransport URL = Some t →
  Forall (λ e, e = Call_start ∨ e = Call_stop) evs →
  let w := run SocketConstructor evs (initial t) in
  (is_Some (SocketConstructor URL) →
     (_socket (this w) = None ↔ _active (this w) = false)) ∧
  (SocketConstructor URL = None → _socket (this w) = None) ∧
  _state (this w) = unconnected ∧
  _reconnectTimeout (this w) = None ∧
  pending w = [] ∧
  emitted w = [].
Proof.
  intros Hnew Hevs. cbn zeta.
  assert (∀ w,
    _URL (this w) = URL ∧
    ((is_Some (SocketConstructor URL) →
        (_socket (this w) = None ↔ _active (this w) = false)) ∧
     (SocketConstructor URL = None → _socket (this w) = None) ∧
     _state (this w) = unconnected ∧
     _reconnectTimeout (this w) = None ∧
     pending w = [] ∧ emitted w = []) →
    let w' := run SocketConstructor evs w in
    (is_Some (SocketConstructor URL) →
       (_socket (this w') = None ↔ _active (this w') = false)) ∧
    (SocketConstructor URL = None → _socket (this w') = None) ∧
    _state (this w') = unconnected ∧
    _reconnectTimeout (this w') = None ∧
    pending w' = [] ∧ emitted w' = []) as Hrun.
  { induction Hevs as [|e evs He _ IH]; intros w [Hu Hw]; [done|].
    cbn [run foldl]. apply IH. split; [by rewrite step_URL|].
    destruct He as [-> | ->]; cbn [step].
    - unfold start. destruct (_active (this w)) eqn:Ea; cbn [negb];
        [by rewrite Ea|].
      destruct Hw as (Hsa & Hne & Hst & Hrt & Hp & Hem).
      destruct (connect_fields SocketConstructor (set_active true w))
        as (_ & -> & -> & ->).
      destruct (connect_timers SocketConstructor (set_active true w)) as [-> _].
      rewrite connect_emitted, connect_this.
      cbn [this set_active _URL _socket _active _state _reconnectTimeout pending emitted].
      rewrite Hu. split; [|split; [|done]].
      + intros [o Eo]. rewrite Eo; cbn. split; discriminate.
      + intros En. rewrite En. by apply Hne.
    - unfold stop. destruct (_active (this w)) eqn:Ea; [|by rewrite Ea].
      destruct Hw as (Hsa & Hne & Hst & Hrt & Hp & Hem).
      rewrite disconnect_this, disconnect_emitted, disconnect_pending.
      cbn [this set_active _socket _active _state _reconnectTimeout _URL pending emitted].
      rewrite Hrt. by repeat split. }
  apply Hrun. destruct URL; [done|]. injection Hnew as <-. cbn.
  by repeat split.
Qed.

End UserCalls.

Lemma start_stop_only_witness :
  let w := run WebSocket [Call_start; Call_start; Call_stop; Call_start]
               (initial transport0) in
  let v := run (λ _, None) [Call_start; Call_start; Call_stop; Call_start]
               (initial transport0) in
  ((_socket (this w) = None ↔ _active (this w) = false) ∧
   _state (this w) = unconnected ∧ pending w = [] ∧ emitted w = []) ∧
  (_socket (this v) = None ∧ _active (this v) = true).
Proof.
  cbn zeta. split.
  - destruct (start_stop_only WebSocket ws_url transport0
                [Call_start; Call_start; Call_stop; Call_start])
      as (Hs & _ & Hst & _ & Hp & He);
      [by vm_compute
      |repeat (constructor; [first [left; reflexivity | right; reflexivity]|]);
       constructor
      |].
    split; [apply Hs; by eexists|]. split; [exact Hst|]. split; [exact Hp|exact He].
  - destruct (start_stop_only (λ _, None) ws_url transport0
                [Call_start; Call_start; Call_stop; Call_start])
      as (_ & Hn & _);
      [by vm_compute
      |repeat (constructor; [first [left; reflexivity | right; reflexivity]|]);
       constructor
      |].
    split; [by apply Hn|by vm_compute].
Defined.
